(** * LTICircuit (bag/data/lti.py): a shallow embedding

    The class [LTICircuit] keeps a node registry ([_node_id], [_n]) and two
    coordinate-keyed accumulators ([_gmat_data], [_cmat_data]).  The methods
    mutate the object and may raise, so every method is a function from the
    object state to an outcome and the state the object is left in.

    Python floats are idealised as exact rationals ([Q]); integers (node
    indices, shapes) are [Z].  Dictionaries are [gmap]s: a read of a missing
    key raises [KeyError], as for a plain Python [dict]. *)

From Stdlib Require Import ZArith QArith Qabs Lia.
From stdpp Require Import gmap strings list fin_maps.

Open Scope string_scope.
Open Scope Z_scope.

(** ** Exceptions and outcomes *)

Inductive exn : Type :=
| KeyError
| IndexError
| ZeroDivisionError
| ValueError (msg : string).

Inductive outcome (A : Type) : Type :=
| Ok (a : A)
| Raise (e : exn).
Arguments Ok {A} a.
Arguments Raise {A} e.

(** The three [ValueError]s raised by the module itself. *)
Definition SameNodeError : exn := ValueError "Input and output nodes are the same.".
Definition ShortedPortError : exn := ValueError "Shorting input/output.".
Definition SingularMatrixError : exn := ValueError "cap matrix is singular.".

(** ** The object state *)

Record LTICircuit : Type := mkLTI {
  _n : Z;
  _gmat_data : gmap (Z * Z) Q;
  _cmat_data : gmap (Z * Z) Q;
  _node_id : gmap string Z
}.

(** [__init__] *)
Definition init : LTICircuit :=
  mkLTI 0 ∅ ∅ (<["gnd" := -1]> (<["vss" := -1]> (<["vdd" := -1]> ∅))).

(** ** Methods as state transformers that may raise *)

Definition M (A : Type) : Type := LTICircuit → outcome A * LTICircuit.

Definition ret {A} (a : A) : M A := fun c => (Ok a, c).
Definition raise {A} (e : exn) : M A := fun c => (Raise e, c).
Definition bind {A B} (m : M A) (k : A → M B) : M B :=
  fun c => match m c with
           | (Ok a, c') => k a c'
           | (Raise e, c') => (Raise e, c')
           end.

Notation "'let*' x ':=' m 'in' k" := (bind m (fun x => k))
  (at level 10, x name, m at level 100, k at level 200).
Notation "m '>>' k" := (bind m (fun _ => k))
  (at level 90, right associativity).

Definition when_ (b : bool) (m : M unit) : M unit := if b then m else ret tt.

(** [name not in self._node_id] / [self._node_id[name]] *)
Definition _get_node_id (name : string) : M Z :=
  fun c => match _node_id c !! name with
           | None =>
               let ans := _n c in
               (Ok ans, mkLTI (_n c + 1) (_gmat_data c) (_cmat_data c)
                              (<[name := ans]> (_node_id c)))
           | Some i => (Ok i, c)
           end.

(** [d[k] += v] on a plain dict: the read [d[k]] comes first and raises
    [KeyError] when [k] is missing. *)
Definition dict_iadd (d : gmap (Z * Z) Q) (k : Z * Z) (v : Q) : outcome (gmap (Z * Z) Q) :=
  match d !! k with
  | Some x => Ok (<[k := (x + v)%Q]> d)
  | None => Raise KeyError
  end.

Definition dict_isub (d : gmap (Z * Z) Q) (k : Z * Z) (v : Q) : outcome (gmap (Z * Z) Q) :=
  match d !! k with
  | Some x => Ok (<[k := (x - v)%Q]> d)
  | None => Raise KeyError
  end.

Definition gmat_iadd (k : Z * Z) (v : Q) : M unit :=
  fun c => match dict_iadd (_gmat_data c) k v with
           | Ok d => (Ok tt, mkLTI (_n c) d (_cmat_data c) (_node_id c))
           | Raise e => (Raise e, c)
           end.
Definition gmat_isub (k : Z * Z) (v : Q) : M unit :=
  fun c => match dict_isub (_gmat_data c) k v with
           | Ok d => (Ok tt, mkLTI (_n c) d (_cmat_data c) (_node_id c))
           | Raise e => (Raise e, c)
           end.
Definition cmat_iadd (k : Z * Z) (v : Q) : M unit :=
  fun c => match dict_iadd (_cmat_data c) k v with
           | Ok d => (Ok tt, mkLTI (_n c) (_gmat_data c) d (_node_id c))
           | Raise e => (Raise e, c)
           end.
Definition cmat_isub (k : Z * Z) (v : Q) : M unit :=
  fun c => match dict_isub (_cmat_data c) k v with
           | Ok d => (Ok tt, mkLTI (_n c) (_gmat_data c) d (_node_id c))
           | Raise e => (Raise e, c)
           end.

(** [1 / x] *)
Definition py_inv (x : Q) : M Q :=
  if Qeq_bool x 0 then raise ZeroDivisionError else ret (/ x)%Q.

(** [if node_p < node_n: node_p, node_n = node_n, node_p] *)
Definition swap_lt (node_p node_n : Z) : Z * Z :=
  if node_p <? node_n then (node_n, node_p) else (node_p, node_n).

Definition add_res (res : Q) (p_name n_name : string) : M unit :=
  let* node_p := _get_node_id p_name in
  let* node_n := _get_node_id n_name in
  if node_p =? node_n then ret tt
  else
    let '(node_p, node_n) := swap_lt node_p node_n in
    let* g := py_inv res in
    gmat_iadd (node_p, node_p) g >>
    when_ (0 <=? node_n)
      (gmat_isub (node_p, node_n) g >>
       gmat_iadd (node_n, node_n) g >>
       gmat_isub (node_n, node_p) g).

Definition add_cap (cap : Q) (p_name n_name : string) : M unit :=
  let* node_p := _get_node_id p_name in
  let* node_n := _get_node_id n_name in
  if node_p =? node_n then ret tt
  else
    let '(node_p, node_n) := swap_lt node_p node_n in
    cmat_iadd (node_p, node_p) cap >>
    when_ (0 <=? node_n)
      (cmat_isub (node_p, node_n) cap >>
       cmat_iadd (node_n, node_n) cap >>
       cmat_isub (node_n, node_p) cap).

Definition add_gm (gm : Q) (p_name n_name cp_name cn_name : string) : M unit :=
  let* node_p := _get_node_id p_name in
  let* node_n := _get_node_id n_name in
  let* node_cp := _get_node_id cp_name in
  let* node_cn := _get_node_id cn_name in
  if (node_p =? node_n) || (node_cp =? node_cn) then ret tt
  else
    when_ (0 <=? node_cp)
      (when_ (0 <=? node_p) (gmat_iadd (node_p, node_cp) gm) >>
       when_ (0 <=? node_n) (gmat_isub (node_n, node_cp) gm)) >>
    when_ (0 <=? node_cn)
      (when_ (0 <=? node_p) (gmat_isub (node_p, node_cn) gm) >>
       when_ (0 <=? node_n) (gmat_iadd (node_n, node_cn) gm)).

(** [add_transistor]: nine dictionary reads, scaled by [fg], then nine
    element additions in the order of the source. *)
Definition tran_get (tran_info : gmap string Q) (key : string) : M Q :=
  match tran_info !! key with
  | Some v => ret v
  | None => raise KeyError
  end.

Definition add_transistor (tran_info : gmap string Q)
    (d_name g_name s_name b_name : string) (fg : Z) : M unit :=
  let fgq := inject_Z fg in
  let* gm := tran_get tran_info "gm" in
  let gm := (gm * fgq)%Q in
  let* gds := tran_get tran_info "gds" in
  let* ro := py_inv (gds * fgq)%Q in
  let* gb := tran_get tran_info "gb" in
  let gb := (gb * fgq)%Q in
  let* cgd := tran_get tran_info "cgd" in
  let cgd := (cgd * fgq)%Q in
  let* cgs := tran_get tran_info "cgs" in
  let cgs := (cgs * fgq)%Q in
  let* cgb := tran_get tran_info "cgb" in
  let cgb := (cgb * fgq)%Q in
  let* cds := tran_get tran_info "cds" in
  let cds := (cds * fgq)%Q in
  let* cdb := tran_get tran_info "cdb" in
  let cdb := (cdb * fgq)%Q in
  let* csb := tran_get tran_info "csb" in
  let csb := (csb * fgq)%Q in
  add_gm gm d_name s_name g_name s_name >>
  add_res ro d_name s_name >>
  add_gm gb d_name s_name b_name s_name >>
  add_cap cgd g_name d_name >>
  add_cap cgs g_name s_name >>
  add_cap cgb g_name b_name >>
  add_cap cds d_name s_name >>
  add_cap cdb d_name b_name >>
  add_cap csb s_name b_name.

(** ** Pure computations that may raise (the queries do not assign to
    [self]) *)

Definition obind {A B} (m : outcome A) (k : A → outcome B) : outcome B :=
  match m with
  | Ok a => k a
  | Raise e => Raise e
  end.

Notation "'let?' x ':=' m 'in' k" := (obind m (fun x => k))
  (at level 10, x name, m at level 100, k at level 200).
Notation "'let?' ' pat ':=' m 'in' k" :=
  (obind m (fun x => match x with pat => k end))
  (at level 10, pat pattern, m at level 100, k at level 200).

(** ** Matrices

    A matrix value carries its shape and its rows; this one type stands for
    numpy arrays and for scipy's sparse matrices alike. *)

Record matrix : Type := mkMat {
  nrows : Z;
  ncols : Z;
  mrows : list (list Q)
}.

(** numpy index normalisation: a negative index counts from the end. *)
Definition np_index (len i : Z) : outcome Z :=
  if (0 <=? i) && (i <? len) then Ok i
  else if (- len <=? i) && (i <? 0) then Ok (i + len)
  else Raise IndexError.

(** [a[i, j]] *)
Definition mat_get (a : matrix) (i j : Z) : outcome Q :=
  let? i := np_index (nrows a) i in
  let? j := np_index (ncols a) j in
  match mrows a !! Z.to_nat i with
  | Some r => match r !! Z.to_nat j with
              | Some x => Ok x
              | None => Raise IndexError
              end
  | None => Raise IndexError
  end.

(** [a[i, j] = v] *)
Definition mat_set (a : matrix) (i j : Z) (v : Q) : outcome matrix :=
  let? i := np_index (nrows a) i in
  let? j := np_index (ncols a) j in
  Ok (mkMat (nrows a) (ncols a)
        (alter (fun r => <[Z.to_nat j := v]> r) (Z.to_nat i) (mrows a))).

(** [np.zeros((m, n))] *)
Definition np_zeros (m n : Z) : outcome matrix :=
  if (m <? 0) || (n <? 0)
  then Raise (ValueError "negative dimensions are not allowed")
  else Ok (mkMat m n (replicate (Z.to_nat m) (replicate (Z.to_nat n) 0%Q))).

(** [np.ones((1, 1)) * x] *)
Definition np_ones11_times (x : Q) : matrix := mkMat 1 1 [[(1 * x)%Q]].

(** [-a] *)
Definition mat_neg (a : matrix) : matrix :=
  mkMat (nrows a) (ncols a) (map (map Qopp) (mrows a)).

(** [a -= b] for operands of one shape. *)
Definition mat_sub (a b : matrix) : outcome matrix :=
  if (nrows a =? nrows b) && (ncols a =? ncols b)
  then Ok (mkMat (nrows a) (ncols a)
             (zip_with (zip_with Qminus) (mrows a) (mrows b)))
  else Raise (ValueError "operands could not be broadcast together").

(** Sum of the values stored at one coordinate: the stored value itself when
    there is one, zero when there is none. *)
Fixpoint sum_dups (l : list Q) : Q :=
  match l with
  | [] => 0%Q
  | x :: l' => match l' with
               | [] => x
               | _ => (x + sum_dups l')%Q
               end
  end.

(** [np.dot(a, b)], taken as the matrix product also where [a] is a
    sparse matrix. *)
Definition col_of (b : matrix) (j : nat) : list Q :=
  map (fun r => default 0%Q (r !! j)) (mrows b).
Definition dot_row (r col : list Q) : Q := sum_dups (zip_with Qmult r col).
Definition np_dot (a b : matrix) : outcome matrix :=
  if ncols a =? nrows b
  then Ok (mkMat (nrows a) (ncols b)
             (map (fun r => map (fun j => dot_row r (col_of b j))
                                (seq 0 (Z.to_nat (ncols b))))
                  (mrows a)))
  else Raise (ValueError "shapes not aligned").

(** [a[:, cols]] for a list of column numbers. *)
Definition select_cols (a : matrix) (cols : list Z) : outcome matrix :=
  if forallb (fun j => (0 <=? j) && (j <? ncols a)) cols
  then Ok (mkMat (nrows a) (Z.of_nat (length cols))
             (map (fun r => map (fun j => default 0%Q (r !! Z.to_nat j)) cols)
                  (mrows a)))
  else Raise IndexError.

(** Python slice bounds [start:stop] on a sequence of length [len]. *)
Definition slice_bound (len x : Z) : Z :=
  if x <? 0 then Z.max 0 (x + len) else Z.min x len.

(** [a[:, start:stop]] *)
Definition slice_cols (a : matrix) (start stop : Z) : matrix :=
  let lo := slice_bound (ncols a) start in
  let hi := slice_bound (ncols a) stop in
  let w := Z.max 0 (hi - lo) in
  mkMat (nrows a) w
    (map (fun r => take (Z.to_nat w) (drop (Z.to_nat lo) r)) (mrows a)).

(** [scipy.sparse.csc_matrix((data, (rows, cols)), shape=shape)]: the
    coordinates are checked against the shape. *)
Definition coo_entry (items : list (Z * Z * Q)) (i j : Z) : Q :=
  sum_dups (map snd (filter (fun t => t.1 = (i, j)) items)).

Definition csc_matrix (items : list (Z * Z * Q)) (shape : Z * Z) : outcome matrix :=
  let '(m, n) := shape in
  if (m <? 0) || (n <? 0)
  then Raise (ValueError "'shape' elements cannot be negative")
  else if existsb (fun t => m <=? t.1.1) items
  then Raise (ValueError "row index exceeds matrix dimensions")
  else if existsb (fun t => n <=? t.1.2) items
  then Raise (ValueError "column index exceeds matrix dimensions")
  else if existsb (fun t => t.1.1 <? 0) items
  then Raise (ValueError "negative row index found")
  else if existsb (fun t => t.1.2 <? 0) items
  then Raise (ValueError "negative column index found")
  else Ok (mkMat m n
             (map (fun i => map (fun j => coo_entry items i j) (seqZ 0 n))
                  (seqZ 0 m))).

(** [dict_to_csc_mat] *)
Definition dict_to_csc_mat (table : gmap (Z * Z) Q) (shape : Z * Z)
    (ignore_row ignore_col : Z) : outcome matrix :=
  csc_matrix
    (filter (fun t => t.1.1 ≠ ignore_row ∧ t.1.2 ≠ ignore_col) (map_to_list table))
    shape.

(** [self._node_id[name]] *)
Definition node_of (c : LTICircuit) (name : string) : outcome Z :=
  match _node_id c !! name with
  | Some i => Ok i
  | None => Raise KeyError
  end.

(** The numerator loop
    [while abs(num[0]) <= atol: num = num[1:]]: reading [num[0]] of an
    empty array raises [IndexError]. *)
Fixpoint trim_leading (atol : Q) (num : list Q) : outcome (list Q) :=
  match num with
  | [] => Raise IndexError
  | c :: rest =>
      if Qle_bool (Qabs c) atol then trim_leading atol rest else Ok num
  end.

(** The loop test [abs(c) <= atol]. *)
Definition within (atol c : Q) : Prop := Qle_bool (Qabs c) atol = true.

(** The arguments handed to [TransferFunctionContinuous]. *)
Record TransferFunctionContinuous : Type := mkTF {
  tf_num : list Q;
  tf_den : list Q
}.

(** ** The queries

    [scipy.sparse.linalg.factorized] and [scipy.signal.ss2tf] are library
    code.  [factorized m] is [Some solve_fun] when the factorisation of the
    square matrix [m] succeeds and [None] when it raises [RuntimeError];
    [ss2tf] gives row 0 of the numerator array and the denominator. *)

Definition state_space : Type := (matrix * matrix * matrix * matrix)%type.

Section Queries.
Variable factorized : matrix → option (matrix → matrix).
Variable ss2tf : matrix → matrix → matrix → matrix → list Q * list Q.

(** [try: solve_fun = factorized(m) / except RuntimeError: raise
    ValueError('cap matrix is singular.')]; a matrix that is not square
    is refused by the library with a [ValueError] of its own. *)
Definition factorize (m : matrix) : outcome (matrix → matrix) :=
  if nrows m =? ncols m
  then match factorized m with
       | Some solve_fun => Ok solve_fun
       | None => Raise SingularMatrixError
       end
  else Raise (ValueError "can only factor square matrices").

(** [[idx for idx in range(self._n) if idx != node_in]] *)
Definition col_core (n node_in : Z) : list Z :=
  filter (fun idx => idx ≠ node_in) (seqZ 0 n).

(** Lines 230-237 of [get_voltage_gain_system]: [gmat], [cmat],
    [cmat_core], [gmat_core]. *)
Definition voltage_gain_matrices (c : LTICircuit) (node_in : Z)
    : outcome (matrix * matrix * matrix * matrix) :=
  let mat_shape := (_n c - 1, _n c) in
  let? gmat := dict_to_csc_mat (_gmat_data c) mat_shape node_in (-1) in
  let? cmat := dict_to_csc_mat (_cmat_data c) mat_shape node_in (-1) in
  let? cmat_core := select_cols cmat (col_core (_n c) node_in) in
  let? gmat_core := select_cols gmat (col_core (_n c) node_in) in
  Ok (gmat, cmat, cmat_core, gmat_core).

(** [if node_out > node_in: node_out -= 1] *)
Definition remap (node removed : Z) : Z :=
  if removed <? node then node - 1 else node.

(** Lines 244-259: the state-space model, given the solver. *)
Definition voltage_gain_model (c : LTICircuit) (node_in node_out : Z)
    (gmat cmat gmat_core : matrix) (solve_fun : matrix → matrix)
    : outcome state_space :=
  let cvec_in := slice_cols cmat node_in (node_in + 1) in
  let gvec_in := slice_cols gmat node_in (node_in + 1) in
  let node_out := remap node_out node_in in
  let weight_vec := solve_fun cvec_in in
  let? prod := np_dot gmat_core weight_vec in
  let? gvec_in := mat_sub gvec_in prod in
  let? w := mat_get weight_vec node_out 0 in
  let dmat := np_ones11_times (- w) in
  let amat := solve_fun (mat_neg gmat_core) in
  let bmat := solve_fun (mat_neg gvec_in) in
  let? cmat := np_zeros 1 (_n c - 1) in
  let? cmat := mat_set cmat 0 node_out 1 in
  Ok (amat, bmat, cmat, dmat).

(** Lines 225-259. *)
Definition voltage_gain_state_space (c : LTICircuit) (in_name out_name : string)
    : outcome state_space :=
  let? node_in := node_of c in_name in
  let? node_out := node_of c out_name in
  if node_in =? node_out then Raise SameNodeError
  else
    let? '(gmat, cmat, cmat_core, gmat_core) := voltage_gain_matrices c node_in in
    let? solve_fun := factorize cmat_core in
    voltage_gain_model c node_in node_out gmat cmat gmat_core solve_fun.

(** Lines 261-268, shared by both queries. *)
Definition to_transfer_function (ss : state_space) (atol : Q)
    : outcome TransferFunctionContinuous :=
  let '(amat, bmat, cmat, dmat) := ss in
  let '(num, den) := ss2tf amat bmat cmat dmat in
  let? num := trim_leading atol num in
  Ok (mkTF num den).

Definition get_voltage_gain_system (c : LTICircuit) (in_name out_name : string)
    (atol : Q) : outcome TransferFunctionContinuous :=
  let? ss := voltage_gain_state_space c in_name out_name in
  to_transfer_function ss atol.

(** Lines 294-310 of [get_impedance_gain_system]: the shape, [gmat],
    [cmat] and the two (possibly shifted) node numbers.  An empty
    [short_name] is falsy. *)
Definition impedance_gain_matrices (c : LTICircuit) (node_in node_out : Z)
    (short_name : string) : outcome (Z * Z * matrix * matrix * Z * Z) :=
  if bool_decide (short_name ≠ "")
  then
    let? node_short := node_of c short_name in
    if (node_in =? node_short) || (node_out =? node_short)
    then Raise ShortedPortError
    else
      let mat_shape := (_n c - 1, _n c - 1) in
      let? gmat := dict_to_csc_mat (_gmat_data c) mat_shape node_short node_short in
      let? cmat := dict_to_csc_mat (_cmat_data c) mat_shape node_short node_short in
      Ok (mat_shape, gmat, cmat, remap node_in node_short, remap node_out node_short)
  else
    let mat_shape := (_n c, _n c) in
    let? gmat := dict_to_csc_mat (_gmat_data c) mat_shape (-1) (-1) in
    let? cmat := dict_to_csc_mat (_cmat_data c) mat_shape (-1) (-1) in
    Ok (mat_shape, gmat, cmat, node_in, node_out).

(** Lines 317-325. *)
Definition impedance_gain_model (mat_shape : Z * Z) (node_in node_out : Z)
    (gmat : matrix) (solve_fun : matrix → matrix) : outcome state_space :=
  let? bmat := np_zeros mat_shape.1 1 in
  let? bmat := mat_set bmat node_in 0 (-1)%Q in
  let amat := solve_fun (mat_neg gmat) in
  let bmat := solve_fun (mat_neg bmat) in
  let? cmat := np_zeros 1 mat_shape.1 in
  let? cmat := mat_set cmat 0 node_out 1 in
  let? dmat := np_zeros 1 1 in
  Ok (amat, bmat, cmat, dmat).

(** Lines 291-325. *)
Definition impedance_gain_state_space (c : LTICircuit)
    (in_name out_name short_name : string) : outcome state_space :=
  let? node_in := node_of c in_name in
  let? node_out := node_of c out_name in
  let? '(mat_shape, gmat, cmat, node_in, node_out) :=
    impedance_gain_matrices c node_in node_out short_name in
  let? solve_fun := factorize cmat in
  impedance_gain_model mat_shape node_in node_out gmat solve_fun.

Definition get_impedance_gain_system (c : LTICircuit)
    (in_name out_name short_name : string) (atol : Q)
    : outcome TransferFunctionContinuous :=
  let? ss := impedance_gain_state_space c in_name out_name short_name in
  to_transfer_function ss atol.

End Queries.

(** ** [get_impedance]

    [np.pi] and the method [freqresp] of the transfer-function object are
    library values; [freqresp sys w] gives the frequencies and the complex
    responses, a complex number being a pair (real, imaginary). *)

Section Impedance.
Variable factorized : matrix → option (matrix → matrix).
Variable ss2tf : matrix → matrix → matrix → matrix → list Q * list Q.
Variable np_pi : Q.
Variable freqresp : TransferFunctionContinuous → list Q → list Q * list (Q * Q).

Definition get_impedance (c : LTICircuit) (node_name : string) (freq : Q)
    (short_name : string) (atol : Q) : outcome (Q * Q) :=
  let? sys := get_impedance_gain_system factorized ss2tf c
                node_name node_name short_name atol in
  let w_test := (2 * np_pi * freq)%Q in
  let '(_, zin_vec) := freqresp sys [w_test] in
  match zin_vec !! 0%nat with
  | Some z => Ok z
  | None => Raise IndexError
  end.

End Impedance.

(** ** Reachable object states

    A circuit is built by [__init__] followed by calls of the four public
    [add_*] methods; a call that raises still leaves its registry updates
    behind. *)

Inductive call : Type :=
| CallRes (res : Q) (p_name n_name : string)
| CallCap (cap : Q) (p_name n_name : string)
| CallGm (gm : Q) (p_name n_name cp_name cn_name : string)
| CallTransistor (tran_info : gmap string Q)
    (d_name g_name s_name b_name : string) (fg : Z).

Definition run (k : call) : M unit :=
  match k with
  | CallRes res p n => add_res res p n
  | CallCap cap p n => add_cap cap p n
  | CallGm gm p n cp cn => add_gm gm p n cp cn
  | CallTransistor t d g s b fg => add_transistor t d g s b fg
  end.

Inductive reachable : LTICircuit → Prop :=
| reachable_init : reachable init
| reachable_call c k : reachable c → reachable (run k c).2.

Definition reserved (name : string) : Prop :=
  name = "gnd" ∨ name = "vss" ∨ name = "vdd".

(** The registry invariant: the reserved names sit at -1, the other names
    hold the indices 0 .. [_n]-1, one each. *)
Record registry_ok (c : LTICircuit) : Prop := {
  ok_gnd : _node_id c !! "gnd" = Some (-1);
  ok_vss : _node_id c !! "vss" = Some (-1);
  ok_vdd : _node_id c !! "vdd" = Some (-1);
  ok_nonneg : 0 ≤ _n c;
  ok_range : ∀ name i,
    _node_id c !! name = Some i → ¬ reserved name → 0 ≤ i < _n c;
  ok_inj : ∀ a b i,
    _node_id c !! a = Some i → _node_id c !! b = Some i →
    ¬ reserved a → ¬ reserved b → a = b;
  ok_onto : ∀ i, 0 ≤ i < _n c →
    ∃ name, ¬ reserved name ∧ _node_id c !! name = Some i
}.

(** Every accumulator key lies inside the current node range. *)
Definition keys_ok (c : LTICircuit) : Prop :=
  ∀ r k, (is_Some (_gmat_data c !! (r, k)) ∨ is_Some (_cmat_data c !! (r, k))) →
         (0 ≤ r < _n c) ∧ (0 ≤ k < _n c).

(** The indices a call obtains from the registry, in the order of its
    [_get_node_id] calls, and the state the registry is left in. *)
Fixpoint resolve_all (names : list string) : M (list Z) :=
  match names with
  | [] => ret []
  | name :: rest =>
      let* i := _get_node_id name in
      let* l := resolve_all rest in
      ret (i :: l)
  end.

(** The terminal names of a call, in the order they are resolved. *)
Definition terminals (k : call) : list string :=
  match k with
  | CallRes _ p n | CallCap _ p n => [p; n]
  | CallGm _ p n cp cn => [p; n; cp; cn]
  | CallTransistor _ d g s b _ => [d; g; s; b]
  end.

(** The call is an element between a node and itself: the two terminals
    (for [add_gm] also: the two control terminals) resolve to one index. *)
Definition self_loop (k : call) (c : LTICircuit) : Prop :=
  match k with
  | CallRes _ _ _ | CallCap _ _ _ =>
      ∃ i c', resolve_all (terminals k) c = (Ok [i; i], c')
  | CallGm _ _ _ _ _ =>
      ∃ ip i_n icp icn c',
        resolve_all (terminals k) c = (Ok [ip; i_n; icp; icn], c')
        ∧ (ip = i_n ∨ icp = icn)
  | CallTransistor _ _ _ _ _ _ => False
  end.

(** Both accumulators hold no entry. *)
Definition accumulators_empty (c : LTICircuit) : Prop :=
  _gmat_data c = ∅ ∧ _cmat_data c = ∅.

(** A method keeps a property of the object state, whatever it returns. *)
Definition keeps {A} (P : LTICircuit → Prop) (m : M A) : Prop :=
  ∀ c, P c → P (m c).2.

(** The errors the module raises under its own messages; every other
    error comes from the interpreter or a library. *)
Definition module_error (e : exn) : Prop :=
  e = SameNodeError ∨ e = ShortedPortError ∨ e = SingularMatrixError.

(** ** Small instances of the library functions, to run the queries

    A solver for one equation in one unknown, and the transfer function of
    a one-state model [c*b / (s - a) + d]. *)
Definition factorized_1x1 (m : matrix) : option (matrix → matrix) :=
  match mrows m with
  | [[d]] =>
      if Qeq_bool d 0 then None
      else Some (fun rhs =>
                   mkMat (nrows rhs) (ncols rhs)
                     (map (map (fun x => (x / d)%Q)) (mrows rhs)))
  | _ => None
  end.

Definition ss2tf_1x1 (amat bmat cmat dmat : matrix) : list Q * list Q :=
  match mrows amat, mrows bmat, mrows cmat, mrows dmat with
  | [[a]], [[b]], [[c]], [[d]] => ([d; (c * b - d * a)%Q], [1%Q; (- a)%Q])
  | _, _, _, _ => ([0%Q], [1%Q])
  end.

(** The state of an RC low-pass with its stamps stored: a resistor of
    2 Ohm between "in" (index 1) and "out" (index 0), a capacitor of 3 F
    between "out" and ground. *)
Definition rc_lowpass : LTICircuit :=
  mkLTI 2
    (<[(1, 1) := (1 # 2)%Q]> (<[(1, 0) := (- (1 # 2))%Q]>
       (<[(0, 0) := (1 # 2)%Q]> (<[(0, 1) := (- (1 # 2))%Q]> ∅))))
    (<[(0, 0) := 3%Q]> ∅)
    (<["in" := 1]> (<["out" := 0]> (_node_id init))).

(** The same RC low-pass with the names registered in the order of the
    calls [add_res(2, 'in', 'out')], [add_cap(3, 'out', 'gnd')]: "in" is
    index 0 and "out" is index 1. *)
Definition rc_lowpass_in_first : LTICircuit :=
  mkLTI 2
    (<[(1, 1) := (1 # 2)%Q]> (<[(1, 0) := (- (1 # 2))%Q]>
       (<[(0, 0) := (1 # 2)%Q]> (<[(0, 1) := (- (1 # 2))%Q]> ∅))))
    (<[(1, 1) := 3%Q]> ∅)
    (<["out" := 1]> (<["in" := 0]> (_node_id init))).

(** That RC low-pass with one more registered node, "ctl" (index 2), on
    which no element is stamped. *)
Definition rc_lowpass_spare : LTICircuit :=
  mkLTI 3 (_gmat_data rc_lowpass_in_first) (_cmat_data rc_lowpass_in_first)
    (<["ctl" := 2]> (_node_id rc_lowpass_in_first)).

(** A bridged divider with the input registered last: 2 Ohm in parallel
    with 1 F between "in" (index 1) and "out" (index 0), 3 F between "out"
    and ground. *)
Definition rc_bridged : LTICircuit :=
  mkLTI 2
    (_gmat_data rc_lowpass)
    (<[(1, 1) := 1%Q]> (<[(1, 0) := (- 1)%Q]>
       (<[(0, 0) := 4%Q]> (<[(0, 1) := (- 1)%Q]> ∅))))
    (_node_id rc_lowpass).

(** The reduced matrix as the description of the voltage-gain query has
    it: line [node] struck out of the rows and of the columns of the
    n x n matrix, the lines after it moving up by one. *)
Definition core_as_described (table : gmap (Z * Z) Q) (n node : Z) : matrix :=
  let line x := if x <? node then x else x + 1 in
  mkMat (n - 1) (n - 1)
    (map (fun r => map (fun k => default 0%Q (table !! (line r, line k)))
                       (seqZ 0 (n - 1)))
         (seqZ 0 (n - 1))).

(** A matrix value whose rows agree with its shape. *)
Definition mat_ok (a : matrix) : Prop :=
  0 ≤ nrows a ∧ 0 ≤ ncols a
  ∧ length (mrows a) = Z.to_nat (nrows a)
  ∧ Forall (fun r => length r = Z.to_nat (ncols a)) (mrows a).

(** What the library promises of a solver: solving for a right-hand side
    with as many rows as the factorised matrix gives an array of the shape
    of the right-hand side. *)
Definition solver_keeps_shape (factorized : matrix → option (matrix → matrix)) : Prop :=
  ∀ m solve_fun rhs,
    factorized m = Some solve_fun → mat_ok rhs → nrows rhs = nrows m →
    mat_ok (solve_fun rhs)
    ∧ nrows (solve_fun rhs) = nrows rhs ∧ ncols (solve_fun rhs) = ncols rhs.

(** The 1 x [len] row that is 1 at [k] and 0 elsewhere, and the
    [len] x 1 column that is [v] at [k] and 0 elsewhere. *)
Definition unit_row (len k : Z) : matrix :=
  mkMat 1 len [<[Z.to_nat k := 1%Q]> (replicate (Z.to_nat len) 0%Q)].



(** ** The order of first use

    The names a sequence of resolutions registers, in the order they are
    first met, and the index that order gives a name. *)

Definition reserved_names : list string := ["gnd"; "vss"; "vdd"].

Fixpoint index_of (x : string) (l : list string) : option nat :=
  match l with
  | [] => None
  | y :: l' => if decide (x = y) then Some 0%nat else S <$> index_of x l'
  end.

Fixpoint first_use (seen names : list string) : list string :=
  match names with
  | [] => seen
  | x :: rest =>
      if decide (x ∈ reserved_names ∨ x ∈ seen) then first_use seen rest
      else first_use (seen ++ [x]) rest
  end.

Definition expected_index (order : list string) (x : string) : option Z :=
  if decide (x ∈ reserved_names) then Some (-1)
  else Z.of_nat <$> index_of x order.

(** A registry that is laid out as an order of first use says. *)
Definition laid_out (order : list string) (c : LTICircuit) : Prop :=
  _n c = Z.of_nat (length order)
  ∧ ∀ x, _node_id c !! x = expected_index order x.

(** The calls that resolve all their terminals before anything can raise. *)
Definition simple_call (k : call) : Prop :=
  match k with
  | CallTransistor _ _ _ _ _ _ => False
  | _ => True
  end.

(** The circuit a sequence of calls leaves behind. *)
Definition build (ks : list call) : LTICircuit :=
  foldl (fun c k => (run k c).2) init ks.

(** * Theorems *)

(** ** The monad *)

Lemma keeps_ret {A} P (a : A) : keeps P (ret a).
Proof. intros c H. exact H. Qed.

Lemma keeps_raise {A} P e : keeps P (@raise A e).
Proof. intros c H. exact H. Qed.

Lemma keeps_bind {A B} P (m : M A) (k : A → M B) :
  keeps P m → (∀ a, keeps P (k a)) → keeps P (bind m k).
Proof.
  intros Hm Hk c Hc. unfold bind.
  specialize (Hm c Hc). destruct (m c) as [[a|e] c']; simpl in *.
  - apply Hk, Hm.
  - exact Hm.
Qed.

Lemma keeps_when P b m : keeps P m → keeps P (when_ b m).
Proof. destruct b; [done | intros _; apply keeps_ret]. Qed.

Lemma keeps_py_inv P x : keeps P (py_inv x).
Proof. unfold py_inv. destruct (Qeq_bool x 0); [apply keeps_raise | apply keeps_ret]. Qed.

Lemma keeps_tran_get P t key : keeps P (tran_get t key).
Proof. unfold tran_get. destruct (t !! key); [apply keeps_ret | apply keeps_raise]. Qed.

(** ** The registry *)

Lemma get_node_id_seen c name i :
  _node_id c !! name = Some i → _get_node_id name c = (Ok i, c).
Proof. intros H. unfold _get_node_id. by rewrite H. Qed.

Lemma get_node_id_fresh c name :
  _node_id c !! name = None →
  _get_node_id name c =
    (Ok (_n c), mkLTI (_n c + 1) (_gmat_data c) (_cmat_data c)
                       (<[name := _n c]> (_node_id c))).
Proof. intros H. unfold _get_node_id. by rewrite H. Qed.

Lemma get_node_id_again c name :
  ∃ i c', _get_node_id name c = (Ok i, c') ∧ _get_node_id name c' = (Ok i, c')
          ∧ _node_id c' !! name = Some i.
Proof.
  destruct (_node_id c !! name) as [i|] eqn:E.
  - exists i, c. by rewrite (get_node_id_seen _ _ _ E).
  - eexists _, _. rewrite (get_node_id_fresh _ _ E). split; [done|].
    split; [ apply get_node_id_seen |]; simpl; apply lookup_insert_eq.
Qed.

Lemma registry_ok_init : registry_ok init.
Proof.
  split; try done.
  - intros name i H Hn. unfold init in H; simpl in H.
    rewrite !lookup_insert in H. repeat case_decide; subst;
      try (exfalso; apply Hn; unfold reserved; tauto).
    by rewrite lookup_empty in H.
  - intros a b i Ha _ Hn _. unfold init in Ha; simpl in Ha.
    rewrite !lookup_insert in Ha. repeat case_decide; subst;
      try (exfalso; apply Hn; unfold reserved; tauto).
    by rewrite lookup_empty in Ha.
  - simpl. lia.
Qed.

Lemma keeps_registry_get_node_id name : keeps registry_ok (_get_node_id name).
Proof.
  intros c [Hg Hs Hd Hn Hr Hi Ho]. unfold _get_node_id.
  destruct (_node_id c !! name) as [i|] eqn:E; simpl; [by split|].
  assert (Hres : ¬ reserved name).
  { intros [->|[->| ->]]; congruence. }
  split; simpl.
  - rewrite lookup_insert_ne; [done|]. intros ->. apply Hres. unfold reserved; tauto.
  - rewrite lookup_insert_ne; [done|]. intros ->. apply Hres. unfold reserved; tauto.
  - rewrite lookup_insert_ne; [done|]. intros ->. apply Hres. unfold reserved; tauto.
  - lia.
  - intros nm i. rewrite lookup_insert. case_decide.
    + intros [= <-] _. lia.
    + intros H1 H2. specialize (Hr _ _ H1 H2). lia.
  - intros a b i. rewrite !lookup_insert. repeat case_decide; subst.
    + done.
    + intros [= <-] Hb _ Hrb. specialize (Hr _ _ Hb Hrb). lia.
    + intros Ha [= <-] Hra _. specialize (Hr _ _ Ha Hra). lia.
    + apply Hi.
  - intros i Hi'. destruct (decide (i = _n c)) as [->|Hne].
    + exists name. split; [done|]. apply lookup_insert_eq.
    + destruct (Ho i) as (nm & Hnm & Hl); [lia|].
      exists nm. split; [done|]. rewrite lookup_insert_ne; [done|]. congruence.
Qed.

(** ** Properties kept by every public method

    A property kept by the registry lookup and by the in-place
    accumulator updates is kept by every [add_*] call, whether the call
    returns or raises. *)

Section KeptByCalls.
Variable P : LTICircuit → Prop.
Hypothesis P_get : ∀ name, keeps P (_get_node_id name).
Hypothesis P_gadd : ∀ k v, keeps P (gmat_iadd k v).
Hypothesis P_cadd : ∀ k v, keeps P (cmat_iadd k v).

(** [d[k] -= v] is [d[k] += -v]. *)
Lemma P_gsub k v : keeps P (gmat_isub k v).
Proof. exact (P_gadd k (- v)%Q). Qed.

Lemma P_csub k v : keeps P (cmat_isub k v).
Proof. exact (P_cadd k (- v)%Q). Qed.

Ltac keeps_tac :=
  repeat first
    [ apply P_get | apply P_gadd | apply P_gsub | apply P_cadd | apply P_csub
    | apply keeps_ret | apply keeps_raise | apply keeps_py_inv
    | apply keeps_tran_get | apply keeps_when
    | apply keeps_bind; [| intros ?]
    | match goal with
      | |- keeps _ (if ?b then _ else _) => destruct b
      | |- keeps _ (let '(_, _) := ?x in _) => destruct x
      end ].

Lemma keeps_add_res res p n : keeps P (add_res res p n).
Proof. unfold add_res. keeps_tac. Qed.

Lemma keeps_add_cap cap p n : keeps P (add_cap cap p n).
Proof. unfold add_cap. keeps_tac. Qed.

Lemma keeps_add_gm gm p n cp cn : keeps P (add_gm gm p n cp cn).
Proof. unfold add_gm. keeps_tac. Qed.

Lemma keeps_add_transistor t d g s b fg : keeps P (add_transistor t d g s b fg).
Proof.
  unfold add_transistor.
  repeat first
    [ apply keeps_add_res | apply keeps_add_cap | apply keeps_add_gm
    | apply keeps_py_inv | apply keeps_tran_get
    | apply keeps_bind; [| intros ?] ].
Qed.

Lemma keeps_run k : keeps P (run k).
Proof.
  destruct k; simpl;
    [ apply keeps_add_res | apply keeps_add_cap | apply keeps_add_gm
    | apply keeps_add_transistor ].
Qed.

Lemma reachable_keeps : P init → ∀ c, reachable c → P c.
Proof.
  intros H0 c Hc. induction Hc as [|c k _ IH]; [exact H0|].
  by apply keeps_run.
Qed.
End KeptByCalls.

(** An in-place update reads the key first, so it never creates one. *)
Lemma dict_iadd_dom d k v d' : dict_iadd d k v = Ok d' → ∀ k', is_Some (d' !! k') ↔ is_Some (d !! k').
Proof.
  unfold dict_iadd. destruct (d !! k) as [x|] eqn:E; [|done].
  intros [= <-] k'. rewrite lookup_insert. case_decide; subst; [|done].
  rewrite E. split; eauto.
Qed.

Lemma dict_isub_dom d k v d' : dict_isub d k v = Ok d' → ∀ k', is_Some (d' !! k') ↔ is_Some (d !! k').
Proof.
  unfold dict_isub. destruct (d !! k) as [x|] eqn:E; [|done].
  intros [= <-] k'. rewrite lookup_insert. case_decide; subst; [|done].
  rewrite E. split; eauto.
Qed.

Lemma reachable_registry_ok c : reachable c → registry_ok c.
Proof.
  apply reachable_keeps; try apply registry_ok_init.
  - apply keeps_registry_get_node_id.
  - intros k v c0 H. unfold gmat_iadd; cbn beta. destruct (dict_iadd (_gmat_data c0) k v); simpl; [destruct H; split; simpl; assumption | done].
  - intros k v c0 H. unfold cmat_iadd; cbn beta. destruct (dict_iadd (_cmat_data c0) k v); simpl; [destruct H; split; simpl; assumption | done].
Qed.

Lemma keys_ok_get_node_id name : keeps keys_ok (_get_node_id name).
Proof.
  intros c H. unfold _get_node_id. destruct (_node_id c !! name); [done|].
  intros r k Hk. simpl in *. specialize (H r k Hk). lia.
Qed.

Lemma reachable_keys_ok c : reachable c → keys_ok c.
Proof.
  apply reachable_keeps.
  - apply keys_ok_get_node_id.
  - intros k v c0 H. unfold gmat_iadd; cbn beta. destruct (dict_iadd (_gmat_data c0) k v) as [d|] eqn:E; simpl; [|done].
    intros r k' Hk. simpl in *. apply H. rewrite <- (dict_iadd_dom _ _ _ _ E). exact Hk.
  - intros k v c0 H. unfold cmat_iadd; cbn beta. destruct (dict_iadd (_cmat_data c0) k v) as [d|] eqn:E; simpl; [|done].
    intros r k' Hk. simpl in *. apply H. rewrite <- (dict_iadd_dom _ _ _ _ E). exact Hk.
  - intros r k [[x Hx]|[x Hx]]; simpl in Hx; by rewrite lookup_empty in Hx.
Qed.

(** No method ever stores a first value under a key, so both accumulators
    of a reachable circuit are empty. *)
Lemma reachable_accumulators_empty c : reachable c → accumulators_empty c.
Proof.
  apply reachable_keeps; try done.
  - intros name c0 H. unfold _get_node_id. by destruct (_node_id c0 !! name).
  - intros k v c0 [Hg Hc]. unfold gmat_iadd, dict_iadd. by rewrite Hg, lookup_empty.
  - intros k v c0 [Hg Hc]. unfold cmat_iadd, dict_iadd. by rewrite Hc, lookup_empty.
Qed.

(** ** Resolution of terminal names *)

Lemma resolve_all_spec names c :
  ∃ l c', resolve_all names c = (Ok l, c')
    ∧ _gmat_data c' = _gmat_data c ∧ _cmat_data c' = _cmat_data c
    ∧ _n c ≤ _n c'
    ∧ (∀ name i, _node_id c !! name = Some i → _node_id c' !! name = Some i)
    ∧ (∀ name, name ∈ names → _node_id c !! name = None →
         ∃ i, _node_id c' !! name = Some i ∧ _n c ≤ i < _n c').
Proof.
  revert c. induction names as [|x names IH]; intros c.
  - exists [], c. split_and!; try done; try lia. intros name H. by apply elem_of_nil in H.
  - simpl. unfold bind.
    destruct (_node_id c !! x) as [i|] eqn:E.
    + rewrite (get_node_id_seen _ _ _ E).
      destruct (IH c) as (l & c' & -> & Hg & Hc & Hn & Hkeep & Hnew).
      exists (i :: l), c'. split_and!; try done.
      intros name [->|Hin]%elem_of_cons Hnone; [congruence|]. by apply Hnew.
    + rewrite (get_node_id_fresh _ _ E).
      set (c1 := mkLTI _ _ _ _).
      destruct (IH c1) as (l & c' & -> & Hg & Hc & Hn & Hkeep & Hnew).
      exists (_n c :: l), c'. subst c1; simpl in *. split_and!; try done; try lia.
      * intros name i Hl. apply Hkeep. rewrite lookup_insert_ne; [done|]. congruence.
      * intros name Hin Hnone.
        destruct (decide (name = x)) as [->|Hne].
        -- exists (_n c). split; [|lia]. apply Hkeep, lookup_insert_eq.
        -- apply elem_of_cons in Hin as [?|Hin]; [done|].
           destruct (Hnew name Hin) as (i & Hi & Hr).
           { rewrite lookup_insert_ne; [done|]. congruence. }
           exists i. split; [done|lia].
Qed.

(** An index, once given, is never changed by a later call. *)
Lemma run_keeps_index k name i :
  keeps (fun c => _node_id c !! name = Some i) (run k).
Proof.
  apply keeps_run.
  - intros name' c H. unfold _get_node_id.
    destruct (_node_id c !! name') eqn:E; simpl; [done|].
    rewrite lookup_insert_ne; [done|]. congruence.
  - intros key v c H. unfold gmat_iadd; cbn beta.
    by destruct (dict_iadd (_gmat_data c) key v).
  - intros key v c H. unfold cmat_iadd; cbn beta.
    by destruct (dict_iadd (_cmat_data c) key v).
Qed.

(** C8: in every reachable state the three reserved names sit at the
    sentinel -1, every other registered name holds an index in
    0 .. [_n]-1, distinct names hold distinct indices and every index below
    [_n] is taken (so the indices are 0, 1, 2, ... in order of first
    reference: an unseen name receives [_n], which then grows by one);
    [_get_node_id] accepts every string, asking again returns the same
    index and changes nothing, and no later call changes an index. *)
Theorem node_registry_invariant c :
  reachable c →
  (_node_id c !! "gnd" = Some (-1) ∧ _node_id c !! "vss" = Some (-1)
   ∧ _node_id c !! "vdd" = Some (-1))
  ∧ (∀ name i, _node_id c !! name = Some i → ¬ reserved name → 0 ≤ i < _n c)
  ∧ (∀ a b i, _node_id c !! a = Some i → _node_id c !! b = Some i →
              ¬ reserved a → ¬ reserved b → a = b)
  ∧ (∀ i, 0 ≤ i < _n c → ∃ name, ¬ reserved name ∧ _node_id c !! name = Some i)
  ∧ (∀ name, ∃ i c',
       _get_node_id name c = (Ok i, c')
       ∧ (_node_id c !! name = None →
            i = _n c ∧ _n c' = _n c + 1 ∧ _node_id c' = <[name := _n c]> (_node_id c))
       ∧ (∀ j, _node_id c !! name = Some j → i = j ∧ c' = c)
       ∧ _get_node_id name c' = (Ok i, c'))
  ∧ (∀ k name i, _node_id c !! name = Some i →
                 _node_id (run k c).2 !! name = Some i).
Proof.
  intros Hc. destruct (reachable_registry_ok c Hc) as [Hg Hs Hd Hn Hr Hi Ho].
  split_and!; try done; [|intros k name i; apply run_keeps_index].
  intros name. destruct (_node_id c !! name) as [j|] eqn:E.
  - exists j, c. rewrite (get_node_id_seen _ _ _ E). split_and!; try done.
    by intros j' [= <-].
  - eexists _, _. rewrite (get_node_id_fresh _ _ E). split_and!; try done.
    apply get_node_id_seen. simpl. apply lookup_insert_eq.
Qed.

Lemma node_registry_invariant_witness :
  let c := (add_res 1 "in" "out" init).2 in
  reachable c ∧ _node_id c !! "vdd" = Some (-1) ∧ _n c = 2.
Proof.
  assert (H : reachable (run (CallRes 1 "in" "out") init).2)
    by (apply reachable_call, reachable_init).
  split; [exact H|].
  split; [exact (proj2 (proj2 (proj1 (node_registry_invariant _ H)))) | reflexivity].
Defined.

(** ** The shape of a materialised matrix *)

Lemma csc_matrix_shape items m n a :
  csc_matrix items (m, n) = Ok a → nrows a = m ∧ ncols a = n ∧ mat_ok a.
Proof.
  unfold csc_matrix. destruct ((m <? 0) || (n <? 0)) eqn:E; [done|].
  repeat match goal with |- context [if ?b then _ else _] => destruct b end; try done.
  intros [= <-]. apply orb_false_iff in E as [Em En].
  apply Z.ltb_ge in Em, En. unfold mat_ok; simpl. split_and!; try done.
  - by rewrite length_map, length_seqZ.
  - apply Forall_map, Forall_forall. intros i _. simpl.
    by rewrite length_map, length_seqZ.
Qed.

(** ** Elements between a node and itself *)

Lemma get_node_id_total name c : ∃ i c', _get_node_id name c = (Ok i, c').
Proof. unfold _get_node_id. destruct (_node_id c !! name); eauto. Qed.

Ltac resolve_name x c0 i c1 :=
  let E := fresh "E" in
  destruct (get_node_id_total x c0) as (i & c1 & E);
  rewrite E in *; clear E.

(** The state a self-loop call ends in is the state its name resolutions
    produce; the call returns normally. *)
Lemma self_loop_run k c :
  self_loop k c →
  ∃ l, resolve_all (terminals k) c = (Ok l, (run k c).2) ∧ (run k c).1 = Ok tt.
Proof.
  destruct k as [res p n|cap p n|gm p n cp cn|]; simpl; [| | |done].
  - intros (i & c' & H). exists [i; i].
    unfold add_res. unfold bind, ret in *.
    resolve_name p c i1 c1. resolve_name n c1 i2 c2.
    injection H as -> -> ->. by rewrite Z.eqb_refl.
  - intros (i & c' & H). exists [i; i].
    unfold add_cap. unfold bind, ret in *.
    resolve_name p c i1 c1. resolve_name n c1 i2 c2.
    injection H as -> -> ->. by rewrite Z.eqb_refl.
  - intros (ip & i_n & icp & icn & c' & H & Hsame). exists [ip; i_n; icp; icn].
    unfold add_gm. unfold bind, ret in *.
    resolve_name p c i1 c1. resolve_name n c1 i2 c2.
    resolve_name cp c2 i3 c3. resolve_name cn c3 i4 c4.
    injection H as -> -> -> -> ->.
    assert ((ip =? i_n) || (icp =? icn) = true) as ->; [|done].
    apply orb_true_iff. destruct Hsame as [->| ->]; rewrite Z.eqb_refl; tauto.
Qed.

(** C9: an [add_res], [add_cap] or [add_gm] call whose two terminals (for
    [add_gm] also: whose two control terminals) resolve to one node index
    returns without raising and leaves both accumulators as they were. *)
Theorem self_loop_leaves_accumulators k c :
  self_loop k c →
  (run k c).1 = Ok tt
  ∧ _gmat_data (run k c).2 = _gmat_data c
  ∧ _cmat_data (run k c).2 = _cmat_data c.
Proof.
  intros H. destruct (self_loop_run k c H) as (l & Hl & Hok).
  destruct (resolve_all_spec (terminals k) c) as (l' & c' & Hl' & Hg & Hc & _).
  rewrite Hl in Hl'. injection Hl' as _ <-. done.
Qed.

Lemma self_loop_leaves_accumulators_witness :
  self_loop (CallGm 3 "d" "s" "g" "g") init
  ∧ (add_gm 3 "d" "s" "g" "g" init).1 = Ok tt
  ∧ _gmat_data (add_gm 3 "d" "s" "g" "g" init).2 = ∅.
Proof.
  assert (H : self_loop (CallGm 3 "d" "s" "g" "g") init).
  { exists 0, 1, 2, 2, (add_gm 3 "d" "s" "g" "g" init).2.
    split; [vm_compute; reflexivity | right; reflexivity]. }
  split; [exact H|].
  destruct (self_loop_leaves_accumulators _ _ H) as (H1 & H2 & _).
  split; [exact H1 | exact H2].
Defined.

(** C10: a dropped self-loop call still registers its unseen terminal
    names.  The name is in the registry afterwards with an index at or
    above the old node count, the node count has grown (and with it the
    shape of every matrix materialised later with [_n] rows and columns),
    the accumulators are as before, and no accumulator key names the new
    index. *)
Theorem self_loop_registers_names k c name :
  self_loop k c →
  keys_ok c →
  name ∈ terminals k →
  _node_id c !! name = None →
  let c' := (run k c).2 in
  (run k c).1 = Ok tt
  ∧ _n c < _n c'
  ∧ (∃ i, _node_id c' !! name = Some i ∧ _n c ≤ i < _n c'
          ∧ ∀ j, _gmat_data c' !! (i, j) = None ∧ _gmat_data c' !! (j, i) = None
                 ∧ _cmat_data c' !! (i, j) = None ∧ _cmat_data c' !! (j, i) = None)
  ∧ _gmat_data c' = _gmat_data c
  ∧ _cmat_data c' = _cmat_data c
  ∧ (∀ table ignore_row ignore_col m,
       dict_to_csc_mat table (_n c', _n c') ignore_row ignore_col = Ok m →
       _n c < nrows m ∧ _n c < ncols m).
Proof.
  intros H Hkeys Hin Hnone. simpl.
  destruct (self_loop_run k c H) as (l & Hl & Hok).
  destruct (resolve_all_spec (terminals k) c)
    as (l' & c' & Hl' & Hg & Hc & Hn & _ & Hnew).
  rewrite Hl in Hl'. injection Hl' as _ <-.
  destruct (Hnew name Hin Hnone) as (i & Hi & Hr).
  split_and!; try done; [lia| |].
  2:{ intros table ir ic m (-> & -> & _)%csc_matrix_shape. lia. }
  exists i. split_and!; try done; try lia.
  intros j. rewrite Hg, Hc.
  split_and!; apply eq_None_not_Some; intros Hs.
  - destruct (Hkeys i j (or_introl Hs)). lia.
  - destruct (Hkeys j i (or_introl Hs)). lia.
  - destruct (Hkeys i j (or_intror Hs)). lia.
  - destruct (Hkeys j i (or_intror Hs)). lia.
Qed.

Lemma self_loop_registers_names_witness :
  self_loop (CallRes 0 "x" "x") init
  ∧ (add_res 0 "x" "x" init).1 = Ok tt
  ∧ _n init < _n (add_res 0 "x" "x" init).2.
Proof.
  assert (H : self_loop (CallRes 0 "x" "x") init).
  { exists 0, (add_res 0 "x" "x" init).2. vm_compute. reflexivity. }
  assert (Hk : keys_ok init).
  { intros r k [[x Hx]|[x Hx]]; vm_compute in Hx; discriminate. }
  assert (Hin : "x" ∈ terminals (CallRes 0 "x" "x")) by (apply elem_of_cons; left; reflexivity).
  assert (Hn : _node_id init !! "x" = None) by (vm_compute; reflexivity).
  split; [exact H|].
  destruct (self_loop_registers_names _ _ _ H Hk Hin Hn) as (H1 & H2 & _).
  split; [exact H1 | exact H2].
Defined.

(** ** The conductance stamp of a resistor *)

Lemma resolve_two p_name n_name c a b c' :
  resolve_all [p_name; n_name] c = (Ok [a; b], c') →
  ∃ c1, _get_node_id p_name c = (Ok a, c1) ∧ _get_node_id n_name c1 = (Ok b, c').
Proof.
  simpl. unfold bind, ret. intros H.
  destruct (get_node_id_total p_name c) as (i1 & c1 & E1). rewrite E1 in H.
  destruct (get_node_id_total n_name c1) as (i2 & c2 & E2). rewrite E2 in H.
  injection H as -> -> ->. eauto.
Qed.

(** What [add_res] does once the two indices are known and differ. *)
Lemma add_res_after_resolution res p_name n_name c a b c' :
  resolve_all [p_name; n_name] c = (Ok [a; b], c') → a ≠ b →
  add_res res p_name n_name c =
    (let '(node_p, node_n) := swap_lt a b in
     let* g := py_inv res in
     gmat_iadd (node_p, node_p) g >>
     when_ (0 <=? node_n)
       (gmat_isub (node_p, node_n) g >>
        gmat_iadd (node_n, node_n) g >>
        gmat_isub (node_n, node_p) g)) c'.
Proof.
  intros (c1 & E1 & E2)%resolve_two Hne.
  unfold add_res. unfold bind at 1. rewrite E1. unfold bind at 1. rewrite E2.
  apply Z.eqb_neq in Hne. by rewrite Hne.
Qed.

(** With the four entries already present, the stamp is the symmetric one:
    the two diagonal entries grow by [1/res], the two off-diagonal entries
    shrink by it. *)
Lemma add_res_stamp_on_present_keys res p_name n_name c a b c' p n gpp gpn gnn gnp :
  resolve_all [p_name; n_name] c = (Ok [a; b], c') → a ≠ b →
  swap_lt a b = (p, n) → 0 ≤ n → Qeq_bool res 0 = false →
  _gmat_data c !! (p, p) = Some gpp → _gmat_data c !! (p, n) = Some gpn →
  _gmat_data c !! (n, n) = Some gnn → _gmat_data c !! (n, p) = Some gnp →
  add_res res p_name n_name c =
    (Ok tt,
     mkLTI (_n c')
       (<[(n, p) := (gnp - / res)%Q]> (<[(n, n) := (gnn + / res)%Q]>
          (<[(p, n) := (gpn - / res)%Q]> (<[(p, p) := (gpp + / res)%Q]>
             (_gmat_data c)))))
       (_cmat_data c) (_node_id c')).
Proof.
  intros Hres Hne Hswap Hn Hr Hpp Hpn Hnn Hnp.
  rewrite (add_res_after_resolution _ _ _ _ _ _ _ Hres Hne), Hswap.
  destruct (resolve_all_spec [p_name; n_name] c) as (l & c2 & Hl & Hg & Hc & _).
  rewrite Hres in Hl. injection Hl as _ <-.
  assert (Hpn' : p ≠ n).
  { unfold swap_lt in Hswap. destruct (a <? b); injection Hswap as <- <-; congruence. }
  unfold py_inv. rewrite Hr. unfold bind, ret, gmat_iadd, gmat_isub, dict_iadd, dict_isub.
  simpl. rewrite Hg, Hpp. simpl.
  apply Z.leb_le in Hn. rewrite Hn. simpl.
  rewrite lookup_insert_ne by congruence. rewrite Hpn. simpl.
  rewrite !lookup_insert_ne by congruence. rewrite Hnn. simpl.
  rewrite !lookup_insert_ne by congruence. rewrite Hnp. simpl.
  by rewrite Hc.
Qed.

(** In a circuit built by the public methods no entry is ever present, so
    the first accumulator update of every proper resistor raises
    [KeyError]. *)
Lemma add_res_reachable_raises res p_name n_name c a b c' :
  reachable c →
  resolve_all [p_name; n_name] c = (Ok [a; b], c') → a ≠ b →
  Qeq_bool res 0 = false →
  add_res res p_name n_name c = (Raise KeyError, c').
Proof.
  intros Hc Hres Hne Hr.
  rewrite (add_res_after_resolution _ _ _ _ _ _ _ Hres Hne).
  destruct (resolve_all_spec [p_name; n_name] c) as (l & c2 & Hl & Hg & _).
  rewrite Hres in Hl. injection Hl as _ <-.
  destruct (reachable_accumulators_empty c Hc) as [Hg0 _].
  destruct (swap_lt a b) as [p n].
  unfold py_inv. rewrite Hr. unfold bind, ret, gmat_iadd, dict_iadd.
  by rewrite Hg, Hg0, lookup_empty.
Qed.

(** C1 (the code departs from the claim): on a fresh circuit a resistor
    between two new names does not leave G[p,p] = 1/R; the read half of
    [self._gmat_data[(node_p, node_p)] += g] finds no entry and the call
    raises [KeyError], with both names registered and G still empty. *)
Theorem add_res_fresh_circuit_raises :
  add_res 1 "a" "b" init =
    (Raise KeyError,
     mkLTI 2 ∅ ∅ (<["b" := 1]> (<["a" := 0]> (_node_id init)))).
Proof. vm_compute. reflexivity. Qed.

(** ** The numerator loop *)

Lemma trim_leading_ok atol num kept :
  trim_leading atol num = Ok kept ↔
  ∃ (dropped : list Q) c rest, num = (dropped ++ kept)%list ∧ kept = c :: rest
    ∧ Forall (within atol) dropped ∧ ¬ within atol c.
Proof.
  induction num as [|x num IH]; simpl.
  - split; [done|]. intros (d & c & r & H & -> & _). by destruct d.
  - destruct (Qle_bool (Qabs x) atol) eqn:E.
    + rewrite IH. split.
      * intros (d & c & r & -> & -> & Hd & Hc). exists (x :: d), c, r.
        split_and!; try done. by constructor.
      * intros (d & c & r & H & -> & Hd & Hc).
        destruct d as [|y d]; simpl in H; injection H as -> ->.
        -- by destruct Hc.
        -- exists d, c, r. split_and!; try done. by inversion Hd.
    + split.
      * intros [= <-]. exists [], x, num. split_and!; try done.
        unfold within. congruence.
      * intros (d & c & r & H & -> & Hd & Hc).
        destruct d as [|y d]; simpl in H; injection H as -> ->; [done|].
        inversion Hd as [|?? Hy _]. unfold within in Hy. congruence.
Qed.

Lemma trim_leading_raises atol num :
  (∃ e, trim_leading atol num = Raise e) ↔ Forall (within atol) num.
Proof.
  induction num as [|x num IH]; simpl.
  - split; [constructor | eauto].
  - destruct (Qle_bool (Qabs x) atol) eqn:E.
    + rewrite IH. split; [by constructor | by inversion 1].
    + split; [by intros [e ?] |]. inversion 1 as [|?? Hx _]. unfold within in Hx. congruence.
Qed.

Lemma trim_leading_raises_IndexError atol num e :
  trim_leading atol num = Raise e → e = IndexError.
Proof.
  induction num as [|x num IH]; simpl; [congruence|].
  destruct (Qle_bool (Qabs x) atol); [done | congruence].
Qed.

(** X20: trimming what has been trimmed changes nothing: a numerator the
    loop returns starts above the tolerance, so a second pass with the
    same tolerance returns it as it is. *)
Lemma trim_leading_idempotent atol num kept :
  trim_leading atol num = Ok kept → trim_leading atol kept = Ok kept.
Proof.
  intros (d & c & r & _ & -> & _ & Hc)%trim_leading_ok. simpl.
  unfold within in Hc. by destruct (Qle_bool (Qabs c) atol).
Qed.

(** C2 (the code departs from the claim): the loop has no lower bound.  A
    numerator whose coefficients are all within the tolerance is stripped
    to the empty array, and the next read of [num[0]] raises
    [IndexError]; nothing is returned. *)
Theorem trim_leading_strips_everything :
  trim_leading 0 [0%Q; 0%Q] = Raise IndexError
  ∧ ∀ atol num, Forall (within atol) num → trim_leading atol num = Raise IndexError.
Proof.
  split; [reflexivity|]. intros atol num H.
  apply trim_leading_raises in H as [e He]. rewrite He. f_equal.
  by apply trim_leading_raises_IndexError in He.
Qed.

(** ** Where the errors of the queries come from *)

Ltac not_module :=
  let H := fresh in
  intros [H|[H|H]]; discriminate H.

Lemma node_of_raise c name e : node_of c name = Raise e → ¬ module_error e.
Proof. unfold node_of. destruct (_ !! _); [done|]. intros [= <-]. not_module. Qed.

Lemma csc_matrix_raise items shape e :
  csc_matrix items shape = Raise e → ¬ module_error e.
Proof.
  unfold csc_matrix. destruct shape as [m n].
  repeat match goal with |- context [if ?b then _ else _] => destruct b end;
    try done; intros [= <-]; not_module.
Qed.

Lemma dict_to_csc_mat_raise table shape ir ic e :
  dict_to_csc_mat table shape ir ic = Raise e → ¬ module_error e.
Proof. apply csc_matrix_raise. Qed.

Lemma select_cols_raise a cols e : select_cols a cols = Raise e → ¬ module_error e.
Proof. unfold select_cols. destruct (forallb _ _); [done|]. intros [= <-]. not_module. Qed.

Lemma np_index_raise len i e : np_index len i = Raise e → ¬ module_error e.
Proof.
  unfold np_index. repeat match goal with |- context [if ?b then _ else _] => destruct b end;
    try done. intros [= <-]. not_module.
Qed.

Lemma obind_raise {A B} (m : outcome A) (k : A → outcome B) e :
  obind m k = Raise e → m = Raise e ∨ ∃ a, m = Ok a ∧ k a = Raise e.
Proof. destruct m as [a|e']; simpl; [eauto | intros [= <-]; eauto]. Qed.

Lemma obind_ok {A B} (m : outcome A) (k : A → outcome B) b :
  obind m k = Ok b → ∃ a, m = Ok a ∧ k a = Ok b.
Proof. destruct m as [a|e]; simpl; [eauto | done]. Qed.

Lemma mat_get_raise a i j e : mat_get a i j = Raise e → ¬ module_error e.
Proof.
  unfold mat_get.
  intros [H|(i' & _ & [H|(j' & _ & H)]%obind_raise)]%obind_raise;
    [by eapply np_index_raise | by eapply np_index_raise |].
  destruct (_ !! _) as [r|]; [destruct (_ !! _)|]; try done;
    injection H as <-; not_module.
Qed.

Lemma mat_set_raise a i j v e : mat_set a i j v = Raise e → ¬ module_error e.
Proof.
  unfold mat_set.
  intros [H|(i' & _ & [H|(j' & _ & H)]%obind_raise)]%obind_raise;
    [by eapply np_index_raise | by eapply np_index_raise | done].
Qed.

Lemma np_zeros_raise m n e : np_zeros m n = Raise e → ¬ module_error e.
Proof. unfold np_zeros. destruct (_ || _); [|done]. intros [= <-]. not_module. Qed.

Lemma np_dot_raise a b e : np_dot a b = Raise e → ¬ module_error e.
Proof. unfold np_dot. destruct (_ =? _); [done|]. intros [= <-]. not_module. Qed.

Lemma mat_sub_raise a b e : mat_sub a b = Raise e → ¬ module_error e.
Proof. unfold mat_sub. destruct (_ && _); [done|]. intros [= <-]. not_module. Qed.

Create HintDb raise.
#[local] Hint Resolve node_of_raise dict_to_csc_mat_raise select_cols_raise
  mat_get_raise mat_set_raise np_zeros_raise np_dot_raise mat_sub_raise : raise.

(** Walks down a chain of [obind]s that ends in [Raise e]. *)
Ltac raise_chain H :=
  repeat (apply obind_raise in H as [H|(? & _ & H)]; [by eauto with raise|]);
  first [done | by eauto with raise].

Lemma voltage_gain_matrices_raise c node_in e :
  voltage_gain_matrices c node_in = Raise e → ¬ module_error e.
Proof. unfold voltage_gain_matrices. intros H. raise_chain H. Qed.

Lemma voltage_gain_model_raise c node_in node_out gmat cmat gmat_core solve_fun e :
  voltage_gain_model c node_in node_out gmat cmat gmat_core solve_fun = Raise e →
  ¬ module_error e.
Proof. unfold voltage_gain_model. intros H. raise_chain H. Qed.

Lemma impedance_gain_matrices_raise c node_in node_out short_name e :
  impedance_gain_matrices c node_in node_out short_name = Raise e →
  ¬ module_error e
  ∨ (e = ShortedPortError ∧ short_name ≠ ""
     ∧ ∃ node_short, _node_id c !! short_name = Some node_short
                     ∧ (node_in = node_short ∨ node_out = node_short)).
Proof.
  unfold impedance_gain_matrices. case_bool_decide as Hs.
  - unfold node_of. destruct (_node_id c !! short_name) as [k|] eqn:Ek; cbn [obind].
    + destruct ((node_in =? k) || (node_out =? k)) eqn:Eb.
      * intros [= <-]. right. split_and!; try done. exists k. split; [done|].
        apply orb_true_iff in Eb as [Eb|Eb]; apply Z.eqb_eq in Eb; tauto.
      * intros H. left. raise_chain H.
    + intros [= <-]. left. not_module.
  - intros H. left. raise_chain H.
Qed.

Lemma impedance_gain_model_raise mat_shape node_in node_out gmat solve_fun e :
  impedance_gain_model mat_shape node_in node_out gmat solve_fun = Raise e →
  ¬ module_error e.
Proof.
  unfold impedance_gain_model. intros H. raise_chain H.
Qed.

Section QueryErrors.
Variable factorized : matrix → option (matrix → matrix).
Variable ss2tf : matrix → matrix → matrix → matrix → list Q * list Q.

Lemma factorize_raise m e :
  factorize factorized m = Raise e →
  ¬ module_error e
  ∨ (e = SingularMatrixError ∧ nrows m = ncols m ∧ factorized m = None).
Proof.
  unfold factorize. destruct (nrows m =? ncols m) eqn:E.
  - destruct (factorized m); [done|]. intros [= <-]. right.
    by apply Z.eqb_eq in E.
  - intros [= <-]. left. not_module.
Qed.

Lemma factorize_singular m :
  nrows m = ncols m → factorized m = None →
  factorize factorized m = Raise SingularMatrixError.
Proof. intros Hsq Hf. unfold factorize. by rewrite Hsq, Z.eqb_refl, Hf. Qed.

Lemma to_transfer_function_raise ss atol e :
  to_transfer_function ss2tf ss atol = Raise e → ¬ module_error e.
Proof.
  unfold to_transfer_function. destruct ss as [[[a b] cm] d].
  destruct (ss2tf a b cm d) as [num den].
  intros [H|(x & _ & H)]%obind_raise; [|done].
  apply trim_leading_raises_IndexError in H as ->. not_module.
Qed.

(** X19: what the trimming step hands on: the denominator untouched, and of
    the numerator the part from its first coefficient above the tolerance
    on; only leading coefficients within the tolerance are dropped. *)
Lemma to_transfer_function_ok amat bmat cmat dmat atol tf :
  to_transfer_function ss2tf (amat, bmat, cmat, dmat) atol = Ok tf →
  tf_den tf = (ss2tf amat bmat cmat dmat).2
  ∧ ∃ (dropped : list Q) c rest,
      (ss2tf amat bmat cmat dmat).1 = (dropped ++ tf_num tf)%list
      ∧ tf_num tf = c :: rest
      ∧ Forall (within atol) dropped ∧ ¬ within atol c.
Proof.
  unfold to_transfer_function. destruct (ss2tf amat bmat cmat dmat) as [num den].
  intros (kept & Hk & [= <-])%obind_ok. split; [done|].
  by apply trim_leading_ok.
Qed.

(** The ways the voltage-gain query can raise. *)
Lemma voltage_gain_raise c in_name out_name atol e :
  get_voltage_gain_system factorized ss2tf c in_name out_name atol = Raise e →
  ¬ module_error e
  ∨ ∃ node_in node_out,
      _node_id c !! in_name = Some node_in
      ∧ _node_id c !! out_name = Some node_out
      ∧ ((e = SameNodeError ∧ node_in = node_out)
         ∨ (e = SingularMatrixError ∧ node_in ≠ node_out
            ∧ ∃ gmat cmat cmat_core gmat_core,
                voltage_gain_matrices c node_in = Ok (gmat, cmat, cmat_core, gmat_core)
                ∧ nrows cmat_core = ncols cmat_core
                ∧ factorized cmat_core = None)).
Proof.
  unfold get_voltage_gain_system.
  intros [H|(ss & _ & H)]%obind_raise;
    [|left; by eapply to_transfer_function_raise].
  unfold voltage_gain_state_space, node_of in H.
  destruct (_node_id c !! in_name) as [i|]; simpl in H;
    [|injection H as <-; left; not_module].
  destruct (_node_id c !! out_name) as [j|]; simpl in H;
    [|injection H as <-; left; not_module].
  destruct (i =? j) eqn:E.
  - injection H as <-. right. exists i, j. apply Z.eqb_eq in E. tauto.
  - apply Z.eqb_neq in E.
    apply obind_raise in H as [H|([[[gmat cmat] cc] gc] & Hm & H)];
      [left; by eapply voltage_gain_matrices_raise|].
    apply obind_raise in H as [H|(sf & _ & H)];
      [|left; by eapply voltage_gain_model_raise].
    apply factorize_raise in H as [H|(-> & Hsq & Hf)]; [by left|].
    right. exists i, j. split_and!; try done. right. split_and!; try done.
    by exists gmat, cmat, cc, gc.
Qed.

(** The ways the impedance-gain query can raise. *)
Lemma impedance_gain_raise c in_name out_name short_name atol e :
  get_impedance_gain_system factorized ss2tf c in_name out_name short_name atol
    = Raise e →
  ¬ module_error e
  ∨ ∃ node_in node_out,
      _node_id c !! in_name = Some node_in
      ∧ _node_id c !! out_name = Some node_out
      ∧ ((e = ShortedPortError ∧ short_name ≠ ""
          ∧ ∃ node_short, _node_id c !! short_name = Some node_short
                          ∧ (node_in = node_short ∨ node_out = node_short))
         ∨ (e = SingularMatrixError
            ∧ ∃ mat_shape gmat cmat node_in' node_out',
                impedance_gain_matrices c node_in node_out short_name
                  = Ok (mat_shape, gmat, cmat, node_in', node_out')
                ∧ nrows cmat = ncols cmat
                ∧ factorized cmat = None)).
Proof.
  unfold get_impedance_gain_system.
  intros [H|(ss & _ & H)]%obind_raise;
    [|left; by eapply to_transfer_function_raise].
  unfold impedance_gain_state_space, node_of in H.
  destruct (_node_id c !! in_name) as [i|]; simpl in H;
    [|injection H as <-; left; not_module].
  destruct (_node_id c !! out_name) as [j|]; simpl in H;
    [|injection H as <-; left; not_module].
  apply obind_raise in H as [H|([[[[sh gmat] cmat] i'] j'] & Hm & H)].
  - apply impedance_gain_matrices_raise in H as [H|(-> & Hs & Hk)]; [by left|].
    right. exists i, j. split_and!; try done. by left.
  - apply obind_raise in H as [H|(sf & _ & H)];
      [|left; by eapply impedance_gain_model_raise].
    apply factorize_raise in H as [H|(-> & Hsq & Hf)]; [by left|].
    right. exists i, j. split_and!; try done. right. split; [done|].
    by exists sh, gmat, cmat, i', j'.
Qed.

End QueryErrors.

(** ** The three errors of the queries *)

Section QueryClaims.
Variable factorized : matrix → option (matrix → matrix).
Variable ss2tf : matrix → matrix → matrix → matrix → list Q * list Q.

(** C5: each query raises the singular-matrix error exactly when it gets
    as far as factorising its (square) capacitance matrix and the
    factorisation fails; then no transfer function is returned, and when
    the factorisation succeeds that error is not raised. *)
Theorem singular_matrix_error c in_name out_name short_name atol :
  (get_voltage_gain_system factorized ss2tf c in_name out_name atol
     = Raise SingularMatrixError
   ↔ ∃ node_in node_out gmat cmat cmat_core gmat_core,
       _node_id c !! in_name = Some node_in
       ∧ _node_id c !! out_name = Some node_out
       ∧ node_in ≠ node_out
       ∧ voltage_gain_matrices c node_in = Ok (gmat, cmat, cmat_core, gmat_core)
       ∧ nrows cmat_core = ncols cmat_core
       ∧ factorized cmat_core = None)
  ∧ (get_impedance_gain_system factorized ss2tf c in_name out_name short_name atol
       = Raise SingularMatrixError
     ↔ ∃ node_in node_out mat_shape gmat cmat node_in' node_out',
         _node_id c !! in_name = Some node_in
         ∧ _node_id c !! out_name = Some node_out
         ∧ impedance_gain_matrices c node_in node_out short_name
             = Ok (mat_shape, gmat, cmat, node_in', node_out')
         ∧ nrows cmat = ncols cmat
         ∧ factorized cmat = None).
Proof.
  split; split.
  - intros [H|(i & j & Hi & Hj & [[H _]|(_ & Hne & gm & cm & cc & gc & Hm & Hsq & Hf)])
      ]%voltage_gain_raise.
    + exfalso. apply H. unfold module_error. tauto.
    + discriminate H.
    + by exists i, j, gm, cm, cc, gc.
  - intros (i & j & gm & cm & cc & gc & Hi & Hj & Hne & Hm & Hsq & Hf).
    unfold get_voltage_gain_system, voltage_gain_state_space, node_of.
    rewrite Hi, Hj. cbn [obind]. apply Z.eqb_neq in Hne. rewrite Hne, Hm. cbn [obind].
    by rewrite (factorize_singular _ _ Hsq Hf).
  - intros [H|(i & j & Hi & Hj & [[H _]|(_ & sh & gm & cm & i' & j' & Hm & Hsq & Hf)])
      ]%impedance_gain_raise.
    + exfalso. apply H. unfold module_error. tauto.
    + discriminate H.
    + by exists i, j, sh, gm, cm, i', j'.
  - intros (i & j & sh & gm & cm & i' & j' & Hi & Hj & Hm & Hsq & Hf).
    unfold get_impedance_gain_system, impedance_gain_state_space, node_of.
    rewrite Hi, Hj. cbn [obind]. rewrite Hm. cbn [obind].
    by rewrite (factorize_singular _ _ Hsq Hf).
Qed.

(** C6: for registered input and output names the voltage-gain query
    raises the same-node error if and only if the two names hold the same
    index. *)
Theorem same_node_error c in_name out_name node_in node_out atol :
  _node_id c !! in_name = Some node_in →
  _node_id c !! out_name = Some node_out →
  get_voltage_gain_system factorized ss2tf c in_name out_name atol
    = Raise SameNodeError
  ↔ node_in = node_out.
Proof.
  intros Hi Hj. split.
  - intros [H|(i & j & Hi' & Hj' & [[_ H]|[H _]])]%voltage_gain_raise.
    + exfalso. apply H. unfold module_error. tauto.
    + congruence.
    + discriminate H.
  - intros <-.
    unfold get_voltage_gain_system, voltage_gain_state_space, node_of.
    rewrite Hi, Hj. cbn [obind]. by rewrite Z.eqb_refl.
Qed.

(** C7: for registered names the impedance-gain query raises the
    shorted-port error if and only if a (non-empty) short name is given
    and holds the index of the input or of the output; with an empty
    short name it never does, and equal input and output indices are
    no error of their own (there is no same-node check in this query). *)
Theorem shorted_port_error c in_name out_name short_name node_in node_out atol :
  _node_id c !! in_name = Some node_in →
  _node_id c !! out_name = Some node_out →
  (∀ node_short,
     short_name ≠ "" → _node_id c !! short_name = Some node_short →
     get_impedance_gain_system factorized ss2tf c in_name out_name short_name atol
       = Raise ShortedPortError
     ↔ (node_in = node_short ∨ node_out = node_short))
  ∧ (short_name = "" →
     get_impedance_gain_system factorized ss2tf c in_name out_name short_name atol
       ≠ Raise ShortedPortError)
  ∧ get_impedance_gain_system factorized ss2tf c in_name out_name short_name atol
      ≠ Raise SameNodeError.
Proof.
  intros Hi Hj. split_and!.
  - intros k Hs Hk. split.
    + intros [H|(i & j & Hi' & Hj' & [(_ & _ & k' & Hk' & H)|[H _]])]%impedance_gain_raise.
      * exfalso. apply H. unfold module_error. tauto.
      * congruence.
      * discriminate H.
    + intros H.
      unfold get_impedance_gain_system, impedance_gain_state_space, node_of.
      rewrite Hi, Hj. cbn [obind]. unfold impedance_gain_matrices, node_of.
      rewrite bool_decide_true by done. rewrite Hk. cbn [obind].
      assert ((node_in =? k) || (node_out =? k) = true) as ->; [|done].
      apply orb_true_iff. destruct H as [->| ->]; rewrite Z.eqb_refl; tauto.
  - intros -> [H|(i & j & _ & _ & [(_ & H & _)|[H _]])]%impedance_gain_raise.
    + apply H. unfold module_error. tauto.
    + done.
    + discriminate H.
  - intros [H|(i & j & _ & _ & [[H _]|[H _]])]%impedance_gain_raise.
    + apply H. unfold module_error. tauto.
    + discriminate H.
    + discriminate H.
Qed.

End QueryClaims.

Lemma same_node_error_witness :
  _node_id init !! "gnd" = Some (-1) ∧ _node_id init !! "vss" = Some (-1)
  ∧ get_voltage_gain_system factorized_1x1 ss2tf_1x1 init "gnd" "vss" 0
      = Raise SameNodeError.
Proof.
  assert (H1 : _node_id init !! "gnd" = Some (-1)) by reflexivity.
  assert (H2 : _node_id init !! "vss" = Some (-1)) by reflexivity.
  split; [exact H1|]. split; [exact H2|].
  apply (same_node_error factorized_1x1 ss2tf_1x1 init "gnd" "vss" (-1) (-1) 0 H1 H2).
  reflexivity.
Defined.

Lemma shorted_port_error_witness :
  _node_id rc_lowpass !! "out" = Some 0
  ∧ get_impedance_gain_system factorized_1x1 ss2tf_1x1 rc_lowpass "out" "out" "out" 0
      = Raise ShortedPortError.
Proof.
  assert (H : _node_id rc_lowpass !! "out" = Some 0) by reflexivity.
  split; [exact H|].
  apply (proj1 (shorted_port_error factorized_1x1 ss2tf_1x1 rc_lowpass
                  "out" "out" "out" 0 0 0 H H) 0); [done | exact H | left; reflexivity].
Defined.

(** ** Shapes *)

Lemma filter_Forall_id {A} (P : A → Prop) `{∀ x, Decision (P x)} (l : list A) :
  Forall P l → filter P l = l.
Proof.
  induction 1 as [|x l Hx _ IH]; [done|]. by rewrite filter_cons_True, IH.
Qed.

Lemma col_core_length n node_in :
  0 ≤ node_in < n → length (col_core n node_in) = Z.to_nat (n - 1).
Proof.
  intros Hr. unfold col_core.
  replace n with (node_in + (n - node_in)) by lia.
  rewrite seqZ_app by lia. rewrite (seqZ_cons (0 + node_in)) by lia.
  rewrite filter_app, filter_cons_False by (intros H; by apply H).
  rewrite !filter_Forall_id.
  - rewrite length_app, !length_seqZ. lia.
  - apply Forall_seqZ. intros. lia.
  - apply Forall_seqZ. intros. lia.
Qed.

Lemma select_cols_shape a cols b :
  select_cols a cols = Ok b →
  nrows b = nrows a ∧ ncols b = Z.of_nat (length cols) ∧ (mat_ok a → mat_ok b).
Proof.
  unfold select_cols. destruct (forallb _ _); [|done]. intros [= <-]. simpl.
  split_and!; try done. intros (Hr & Hc & Hl & Hf). unfold mat_ok; simpl.
  split_and!; try done; [lia | by rewrite length_map |].
  apply Forall_map, Forall_forall. intros r _. simpl.
  rewrite length_map. lia.
Qed.

Lemma slice_cols_shape a k :
  mat_ok a → 0 ≤ k < ncols a →
  nrows (slice_cols a k (k + 1)) = nrows a
  ∧ ncols (slice_cols a k (k + 1)) = 1
  ∧ mat_ok (slice_cols a k (k + 1)).
Proof.
  intros (Hr & Hc & Hl & Hf) Hk. unfold slice_cols, slice_bound.
  destruct (k <? 0) eqn:E1; [apply Z.ltb_lt in E1; lia|].
  destruct (k + 1 <? 0) eqn:E2; [apply Z.ltb_lt in E2; lia|].
  replace (Z.max 0 (Z.min (k + 1) (ncols a) - Z.min k (ncols a))) with 1 by lia.
  unfold mat_ok; simpl. split_and!; try done; [by rewrite length_map|].
  apply Forall_map. eapply Forall_impl; [exact Hf|]. intros r Hlen. simpl.
  rewrite length_take, length_drop, Hlen. lia.
Qed.

Lemma np_dot_shape a b :
  ncols a = nrows b →
  ∃ p, np_dot a b = Ok p ∧ nrows p = nrows a ∧ ncols p = ncols b.
Proof. intros H. unfold np_dot. rewrite H, Z.eqb_refl. eauto. Qed.

Lemma mat_sub_shape a b :
  nrows a = nrows b → ncols a = ncols b → ∃ d, mat_sub a b = Ok d.
Proof. intros H1 H2. unfold mat_sub. rewrite H1, H2, !Z.eqb_refl. eauto. Qed.

Lemma np_index_in_range len i : 0 ≤ i < len → np_index len i = Ok i.
Proof.
  intros H. unfold np_index.
  destruct (0 <=? i) eqn:E1; [|apply Z.leb_gt in E1; lia].
  destruct (i <? len) eqn:E2; [done|apply Z.ltb_ge in E2; lia].
Qed.

Lemma mat_get_in_range a i j :
  mat_ok a → 0 ≤ i < nrows a → 0 ≤ j < ncols a → ∃ x, mat_get a i j = Ok x.
Proof.
  intros (Hr & Hc & Hl & Hf) Hi Hj. unfold mat_get.
  rewrite !np_index_in_range by done. cbn [obind].
  destruct (lookup_lt_is_Some_2 (mrows a) (Z.to_nat i)) as [r Er]; [lia|].
  rewrite Er. rewrite Forall_forall in Hf.
  assert (Hlen : length r = Z.to_nat (ncols a)).
  { apply Hf. by eapply list_elem_of_lookup_2. }
  destruct (lookup_lt_is_Some_2 r (Z.to_nat j)) as [x Ex]; [lia|].
  rewrite Ex. eauto.
Qed.

Lemma unit_row_built len i k :
  np_index len i = Ok k →
  ∃ z, np_zeros 1 len = Ok z ∧ mat_set z 0 i 1 = Ok (unit_row len k).
Proof.
  intros Hk. unfold np_zeros.
  destruct ((1 <? 0) || (len <? 0)) eqn:E.
  { apply orb_true_iff in E as [E|E]; apply Z.ltb_lt in E; [lia|].
    unfold np_index in Hk.
    destruct (0 <=? i) eqn:E1, (i <? len) eqn:E2, (- len <=? i) eqn:E3, (i <? 0) eqn:E4;
      simpl in Hk; try done; lia. }
  eexists. split; [done|]. unfold mat_set. cbn [nrows ncols mrows].
  rewrite (np_index_in_range 1 0) by lia. rewrite Hk. reflexivity.
Qed.


Lemma Qmult_1_l_eq (x : Q) : (1 * x)%Q = x.
Proof. destruct x as [[|a|a] d]; reflexivity. Qed.

Lemma Qopp_involutive_eq (x : Q) : (- - x)%Q = x.
Proof. destruct x as [[|a|a] d]; reflexivity. Qed.

Lemma registry_ok_bound c name i :
  registry_ok c → _node_id c !! name = Some i → 0 ≤ i → i < _n c.
Proof.
  intros Hreg Hl Hi. apply (ok_range c Hreg name i Hl).
  intros [->|[->| ->]];
    [rewrite (ok_gnd c Hreg) in Hl | rewrite (ok_vss c Hreg) in Hl
    | rewrite (ok_vdd c Hreg) in Hl]; injection Hl as <-; lia.
Qed.

Lemma voltage_gain_matrices_shape c node_in gmat cmat cmat_core gmat_core :
  0 ≤ node_in < _n c →
  voltage_gain_matrices c node_in = Ok (gmat, cmat, cmat_core, gmat_core) →
  (nrows gmat = _n c - 1 ∧ ncols gmat = _n c ∧ mat_ok gmat)
  ∧ (nrows cmat = _n c - 1 ∧ ncols cmat = _n c ∧ mat_ok cmat)
  ∧ (nrows cmat_core = _n c - 1 ∧ ncols cmat_core = _n c - 1)
  ∧ (nrows gmat_core = _n c - 1 ∧ ncols gmat_core = _n c - 1 ∧ mat_ok gmat_core).
Proof.
  intros Hin H. unfold voltage_gain_matrices in H.
  apply obind_ok in H as (g & Hg & H). apply obind_ok in H as (cm & Hc & H).
  apply obind_ok in H as (cc & Hcc & H). apply obind_ok in H as (gc & Hgc & H).
  injection H as -> -> -> ->.
  apply csc_matrix_shape in Hg as (Hg1 & Hg2 & Hg3).
  apply csc_matrix_shape in Hc as (Hc1 & Hc2 & Hc3).
  apply select_cols_shape in Hcc as (Hcc1 & Hcc2 & _).
  apply select_cols_shape in Hgc as (Hgc1 & Hgc2 & Hgc3).
  rewrite col_core_length in Hcc2, Hgc2 by done.
  split_and!; try done; try lia. by apply Hgc3.
Qed.

Section StateSpaceClaims.
Variable factorized : matrix → option (matrix → matrix).
Hypothesis solver_shape : solver_keeps_shape factorized.

(** Where the two matrices materialise and [c_core] factorises, the
    steps after the factorisation all succeed.  With [c_in], [g_in] the
    input columns of C and G and [weight] the solution of
    [c_core x = c_in]:  A solves for [-g_core], B solves for
    [-(g_in - g_core.weight)], D is [-weight[row]] where [row] is the
    output index, lowered by one when it lies above the input index, and
    C_out is the unit row at [row]. *)
Lemma voltage_gain_model_when_materialised
    c in_name out_name node_in node_out gmat cmat cmat_core gmat_core solve_fun :
  registry_ok c →
  _node_id c !! in_name = Some node_in →
  _node_id c !! out_name = Some node_out →
  node_in ≠ node_out → 0 ≤ node_in → 0 ≤ node_out →
  voltage_gain_matrices c node_in = Ok (gmat, cmat, cmat_core, gmat_core) →
  factorized cmat_core = Some solve_fun →
  let c_in := slice_cols cmat node_in (node_in + 1) in
  let g_in := slice_cols gmat node_in (node_in + 1) in
  let weight := solve_fun c_in in
  let row := if node_in <? node_out then node_out - 1 else node_out in
  ∃ prod g_in_adj w,
    np_dot gmat_core weight = Ok prod
    ∧ mat_sub g_in prod = Ok g_in_adj
    ∧ mat_get weight row 0 = Ok w
    ∧ voltage_gain_state_space factorized c in_name out_name =
        Ok (solve_fun (mat_neg gmat_core),
            solve_fun (mat_neg g_in_adj),
            unit_row (_n c - 1) row,
            mkMat 1 1 [[(- w)%Q]]).
Proof.
  intros Hreg Hi Hj Hne Hin0 Hout0 Hm Hf c_in g_in weight row.
  pose proof (registry_ok_bound _ _ _ Hreg Hi Hin0) as Hin1.
  pose proof (registry_ok_bound _ _ _ Hreg Hj Hout0) as Hout1.
  destruct (voltage_gain_matrices_shape _ _ _ _ _ _ (conj Hin0 Hin1) Hm)
    as ((Hg1 & Hg2 & Hg3) & (Hc1 & Hc2 & Hc3) & (Hcc1 & Hcc2) & (Hgc1 & Hgc2 & Hgc3)).
  destruct (slice_cols_shape cmat node_in Hc3) as (Hci1 & Hci2 & Hci3); [lia|].
  destruct (slice_cols_shape gmat node_in Hg3) as (Hgi1 & Hgi2 & Hgi3); [lia|].
  destruct (solver_shape cmat_core solve_fun c_in Hf Hci3) as (Hw3 & Hw1 & Hw2);
    [subst c_in; lia|].
  fold weight in Hw1, Hw2, Hw3.
  assert (Hrow : 0 ≤ row < _n c - 1).
  { subst row. destruct (node_in <? node_out) eqn:E;
      [apply Z.ltb_lt in E | apply Z.ltb_ge in E]; lia. }
  destruct (np_dot_shape gmat_core weight) as (prod & Hp & Hp1 & Hp2);
    [subst c_in; lia|].
  destruct (mat_sub_shape g_in prod) as (g_in_adj & Hs);
    [subst g_in c_in; lia | subst g_in c_in; lia |].
  destruct (mat_get_in_range weight row 0 Hw3) as (w & Hw);
    [subst c_in; lia | subst c_in; lia |].
  exists prod, g_in_adj, w. split_and!; try done.
  unfold voltage_gain_state_space, node_of. rewrite Hi, Hj. cbn [obind].
  apply Z.eqb_neq in Hne. rewrite Hne, Hm. cbn [obind].
  unfold factorize. rewrite Hcc1, Hcc2, Z.eqb_refl, Hf. cbn [obind].
  unfold voltage_gain_model, remap. fold c_in g_in weight row.
  rewrite Hp. cbn [obind]. rewrite Hs. cbn [obind]. rewrite Hw. cbn [obind].
  destruct (unit_row_built _ _ _ (np_index_in_range _ _ Hrow)) as (z & Hz & Hset).
  rewrite Hz. cbn [obind]. rewrite Hset. cbn [obind].
  unfold np_ones11_times. by rewrite Qmult_1_l_eq.
Qed.

End StateSpaceClaims.





Section ImpedanceClaims.
Variable factorized : matrix → option (matrix → matrix).


End ImpedanceClaims.

(** ** The queries on the RC low-pass *)

Lemma factorized_1x1_keeps_shape : solver_keeps_shape factorized_1x1.
Proof.
  intros m sf rhs H (Hr & Hc & Hl & Hf) _. unfold factorized_1x1 in H.
  destruct (mrows m) as [|[|d [|]] [|]]; try done.
  destruct (Qeq_bool d 0); [done|]. injection H as <-.
  unfold mat_ok; simpl. split_and!; try done; [by rewrite length_map|].
  apply Forall_map. eapply Forall_impl; [exact Hf|]. intros r Hlen. simpl.
  by rewrite length_map.
Qed.

Lemma registry_ok_rc_lowpass : registry_ok rc_lowpass.
Proof.
  pose proof (keeps_registry_get_node_id "in" _
                (keeps_registry_get_node_id "out" _ registry_ok_init)) as H.
  destruct H as [Hg Hs Hd Hn Hr Hi Ho]. by split.
Qed.

(** The model of the RC low-pass, input "in", output "out":
    A = -1/(RC), B = 1/(RC), C_out = [1], D = 0 (fractions as computed,
    not reduced). *)
Example voltage_gain_rc_lowpass :
  voltage_gain_state_space factorized_1x1 rc_lowpass "in" "out" =
    Ok (mkMat 1 1 [[(-1 # 6)%Q]], mkMat 1 1 [[(6 # 36)%Q]],
        mkMat 1 1 [[1%Q]], mkMat 1 1 [[(0 # 3)%Q]]).
Proof. vm_compute. reflexivity. Qed.


(** With a tolerance of 1 every numerator coefficient of that query is
    stripped and the query ends in [IndexError]. *)
Example impedance_query_strips_everything :
  get_impedance_gain_system factorized_1x1 ss2tf_1x1 rc_lowpass "out" "out" "in" 1
    = Raise IndexError.
Proof. vm_compute. reflexivity. Qed.

(** The rows are filtered, not renumbered: with the input at index 0 the
    entries of row 1 no longer fit the one-row shape, and the library
    refuses them. *)
Example voltage_gain_input_not_last :
  voltage_gain_state_space factorized_1x1 rc_lowpass "out" "in"
    = Raise (ValueError "row index exceeds matrix dimensions").
Proof. vm_compute. reflexivity. Qed.

(** A circuit as the public methods leave it: the accumulators are empty,
    the capacitance matrix is zero and the query reports it singular. *)
Example voltage_gain_reachable_singular :
  get_voltage_gain_system factorized_1x1 ss2tf_1x1
    (add_res 2 "out" "in" init).2 "in" "out" 0
    = Raise SingularMatrixError.
Proof. vm_compute. reflexivity. Qed.

(** The driving-point case runs through: input and output are one node,
    "in" is shorted to ground, and a transfer function comes back. *)
Example impedance_driving_point :
  get_impedance_gain_system factorized_1x1 ss2tf_1x1 rc_lowpass "out" "out" "in" 0
    = Ok (mkTF [(6 # 18)%Q] [1%Q; (1 # 6)%Q]).
Proof. vm_compute. reflexivity. Qed.


(** * Further properties of the element-adding methods *)

Lemma resolve_all_lookup names c l c' :
  resolve_all names c = (Ok l, c') →
  Forall2 (fun name i => _node_id c' !! name = Some i) names l.
Proof.
  revert c l c'. induction names as [|x names IH]; intros c l c'; simpl.
  - unfold ret. intros [= <- <-]. constructor.
  - unfold bind, ret.
    destruct (get_node_id_again c x) as (i & c1 & E & _ & Hi). rewrite E.
    destruct (resolve_all_spec names c1) as (l1 & c2 & E2 & _ & _ & _ & Hkeep & _).
    rewrite E2. intros [= <- <-]. constructor; [by apply Hkeep | by apply (IH c1)].
Qed.

Lemma keeps_resolve_all P names :
  (∀ name, keeps P (_get_node_id name)) → keeps P (resolve_all names).
Proof.
  intros HP. induction names as [|x names IH]; simpl; [apply keeps_ret|].
  apply keeps_bind; [apply HP|]. intros i.
  apply keeps_bind; [apply IH|]. intros l. apply keeps_ret.
Qed.

(** The indices handed out by a sound registry are -1 or above. *)
Lemma registry_ok_lower c name i :
  registry_ok c → _node_id c !! name = Some i → -1 ≤ i.
Proof.
  intros Hreg Hl.
  destruct (decide (name = "gnd")) as [->|H1];
    [rewrite (ok_gnd c Hreg) in Hl; injection Hl as <-; lia|].
  destruct (decide (name = "vss")) as [->|H2];
    [rewrite (ok_vss c Hreg) in Hl; injection Hl as <-; lia|].
  destruct (decide (name = "vdd")) as [->|H3];
    [rewrite (ok_vdd c Hreg) in Hl; injection Hl as <-; lia|].
  assert (0 ≤ i < _n c); [|lia].
  apply (ok_range c Hreg name i Hl). unfold reserved. tauto.
Qed.

Lemma add_cap_after_resolution cap p_name n_name c a b c' :
  resolve_all [p_name; n_name] c = (Ok [a; b], c') → a ≠ b →
  add_cap cap p_name n_name c =
    (let '(node_p, node_n) := swap_lt a b in
     cmat_iadd (node_p, node_p) cap >>
     when_ (0 <=? node_n)
       (cmat_isub (node_p, node_n) cap >>
        cmat_iadd (node_n, node_n) cap >>
        cmat_isub (node_n, node_p) cap)) c'.
Proof.
  intros (c1 & E1 & E2)%resolve_two Hne.
  unfold add_cap. unfold bind at 1. rewrite E1. unfold bind at 1. rewrite E2.
  apply Z.eqb_neq in Hne. by rewrite Hne.
Qed.

Lemma add_gm_after_resolution gm p_name n_name cp_name cn_name c a b x y c' :
  resolve_all [p_name; n_name; cp_name; cn_name] c = (Ok [a; b; x; y], c') →
  add_gm gm p_name n_name cp_name cn_name c =
    (if (a =? b) || (x =? y) then ret tt
     else
       when_ (0 <=? x)
         (when_ (0 <=? a) (gmat_iadd (a, x) gm) >>
          when_ (0 <=? b) (gmat_isub (b, x) gm)) >>
       when_ (0 <=? y)
         (when_ (0 <=? a) (gmat_isub (a, y) gm) >>
          when_ (0 <=? b) (gmat_iadd (b, y) gm))) c'.
Proof.
  simpl. unfold add_gm, bind, ret. intros H.
  destruct (get_node_id_total p_name c) as (i1 & c1 & E1). rewrite E1 in *.
  destruct (get_node_id_total n_name c1) as (i2 & c2 & E2). rewrite E2 in *.
  destruct (get_node_id_total cp_name c2) as (i3 & c3 & E3). rewrite E3 in *.
  destruct (get_node_id_total cn_name c3) as (i4 & c4 & E4). rewrite E4 in *.
  by injection H as -> -> -> -> ->.
Qed.

(** X1: no call of a public method ever creates (or removes) an accumulator
    entry: after the call, returned or raised, each accumulator holds
    exactly the keys it held before. *)
Theorem calls_never_add_entries k c key :
  (is_Some (_gmat_data (run k c).2 !! key) ↔ is_Some (_gmat_data c !! key))
  ∧ (is_Some (_cmat_data (run k c).2 !! key) ↔ is_Some (_cmat_data c !! key)).
Proof.
  set (P := fun c' : LTICircuit =>
    (is_Some (_gmat_data c' !! key) ↔ is_Some (_gmat_data c !! key))
    ∧ (is_Some (_cmat_data c' !! key) ↔ is_Some (_cmat_data c !! key))).
  assert (HP : keeps P (run k)); [|by apply HP].
  apply keeps_run.
  - intros name c0 H. unfold _get_node_id. by destruct (_node_id c0 !! name).
  - intros k0 v c0 [Hg Hc]. unfold gmat_iadd; cbn beta.
    destruct (dict_iadd (_gmat_data c0) k0 v) as [d|] eqn:E; [|done].
    split; [|done]. simpl. by rewrite (dict_iadd_dom _ _ _ _ E).
  - intros k0 v c0 [Hg Hc]. unfold cmat_iadd; cbn beta.
    destruct (dict_iadd (_cmat_data c0) k0 v) as [d|] eqn:E; [|done].
    split; [done|]. simpl. by rewrite (dict_iadd_dom _ _ _ _ E).
Qed.

(** X2: [add_res] and [add_gm] never touch the capacitance accumulator and
    [add_cap] never touches the conductance accumulator, whether they
    return or raise. *)
Theorem calls_touch_one_accumulator c :
  (∀ res p n, _cmat_data (add_res res p n c).2 = _cmat_data c)
  ∧ (∀ gm p n cp cn, _cmat_data (add_gm gm p n cp cn c).2 = _cmat_data c)
  ∧ (∀ cap p n, _gmat_data (add_cap cap p n c).2 = _gmat_data c).
Proof.
  assert (Hget : ∀ (f : LTICircuit → gmap (Z * Z) Q) name,
            (f = _cmat_data ∨ f = _gmat_data) →
            keeps (fun c' => f c' = f c) (_get_node_id name)).
  { intros f name Hf c0 H. unfold _get_node_id.
    destruct (_node_id c0 !! name); [done|]. by destruct Hf as [-> | ->]. }
  split_and!.
  - intros res p n.
    apply (keeps_add_res (fun c' => _cmat_data c' = _cmat_data c)); [| |done].
    + intros name. apply (Hget _cmat_data). by left.
    + intros k v c0 H. unfold gmat_iadd; cbn beta.
      by destruct (dict_iadd (_gmat_data c0) k v).
  - intros gm p n cp cn.
    apply (keeps_add_gm (fun c' => _cmat_data c' = _cmat_data c)); [| |done].
    + intros name. apply (Hget _cmat_data). by left.
    + intros k v c0 H. unfold gmat_iadd; cbn beta.
      by destruct (dict_iadd (_gmat_data c0) k v).
  - intros cap p n.
    apply (keeps_add_cap (fun c' => _gmat_data c' = _gmat_data c)); [| |done].
    + intros name. apply (Hget _gmat_data). by right.
    + intros k v c0 H. unfold cmat_iadd; cbn beta.
      by destruct (dict_iadd (_cmat_data c0) k v).
Qed.

(** X3: in a circuit built by the public methods every capacitor between
    two distinct nodes raises [KeyError]; its two names are registered and
    nothing else changes. *)
Theorem add_cap_reachable_raises cap p_name n_name c a b c' :
  reachable c →
  resolve_all [p_name; n_name] c = (Ok [a; b], c') → a ≠ b →
  add_cap cap p_name n_name c = (Raise KeyError, c').
Proof.
  intros Hc Hres Hne.
  rewrite (add_cap_after_resolution _ _ _ _ _ _ _ Hres Hne).
  destruct (resolve_all_spec [p_name; n_name] c) as (l & c2 & Hl & _ & Hcm & _).
  rewrite Hres in Hl. injection Hl as _ <-.
  destruct (reachable_accumulators_empty c Hc) as [_ Hc0].
  destruct (swap_lt a b) as [p n].
  unfold bind, cmat_iadd, dict_iadd. by rewrite Hcm, Hc0, lookup_empty.
Qed.

Lemma add_cap_reachable_raises_witness :
  reachable init
  ∧ add_cap 3 "out" "gnd" init
    = (Raise KeyError, mkLTI 1 ∅ ∅ (<["out" := 0]> (_node_id init))).
Proof.
  split; [exact reachable_init|].
  apply (add_cap_reachable_raises 3 "out" "gnd" init 0 (-1) _ reachable_init);
    [vm_compute; reflexivity | lia].
Defined.

(** X4: in a circuit built by the public methods every controlled source
    whose output terminals differ and whose control terminals differ
    raises [KeyError]: one output node and one control node are not
    ground, and the first stamp finds no entry. *)
Theorem add_gm_reachable_raises gm p_name n_name cp_name cn_name c a b x y c' :
  reachable c →
  resolve_all [p_name; n_name; cp_name; cn_name] c = (Ok [a; b; x; y], c') →
  a ≠ b → x ≠ y →
  add_gm gm p_name n_name cp_name cn_name c = (Raise KeyError, c').
Proof.
  intros Hc Hres Hab Hxy.
  rewrite (add_gm_after_resolution _ _ _ _ _ _ _ _ _ _ _ Hres).
  assert (Hreg : registry_ok c').
  { pose proof (keeps_resolve_all registry_ok [p_name; n_name; cp_name; cn_name]
                  keeps_registry_get_node_id c (reachable_registry_ok c Hc)) as H.
    by rewrite Hres in H. }
  apply resolve_all_lookup in Hres as Hl.
  inversion Hl as [|???? Ha Hl1]; subst. inversion Hl1 as [|???? Hb Hl2]; subst.
  inversion Hl2 as [|???? Hx Hl3]; subst. inversion Hl3 as [|???? Hy _]; subst.
  apply (registry_ok_lower _ _ _ Hreg) in Ha, Hb, Hx, Hy.
  destruct (resolve_all_spec [p_name; n_name; cp_name; cn_name] c)
    as (l & c2 & Hl' & Hg & _).
  rewrite Hres in Hl'. injection Hl' as _ <-.
  destruct (reachable_accumulators_empty c Hc) as [Hg0 _].
  assert (He : ∀ key, _gmat_data c' !! key = None)
    by (intros key; by rewrite Hg, Hg0, lookup_empty).
  apply Z.eqb_neq in Hab as Hab', Hxy as Hxy'. rewrite Hab', Hxy'. cbn [orb].
  unfold when_, bind, ret, gmat_iadd, gmat_isub, dict_iadd, dict_isub.
  destruct (0 <=? x) eqn:Ex, (0 <=? a) eqn:Ea, (0 <=? b) eqn:Eb, (0 <=? y) eqn:Ey;
    rewrite ?He; try reflexivity; lia.
Qed.

Lemma add_gm_reachable_raises_witness :
  reachable init
  ∧ (add_gm 5 "d" "gnd" "g" "gnd" init).1 = Raise KeyError.
Proof.
  split; [exact reachable_init|].
  rewrite (add_gm_reachable_raises 5 "d" "gnd" "g" "gnd" init 0 (-1) 1 (-1)
             (resolve_all ["d"; "gnd"; "g"; "gnd"] init).2 reachable_init);
    [reflexivity | vm_compute; reflexivity | lia | lia].
Defined.

(** X5: a resistor of resistance zero between two distinct nodes raises
    [ZeroDivisionError] at [1 / res]; by then both names are registered,
    and no accumulator has been touched. *)
Theorem add_res_zero_resistance res p_name n_name c a b c' :
  resolve_all [p_name; n_name] c = (Ok [a; b], c') → a ≠ b →
  Qeq_bool res 0 = true →
  add_res res p_name n_name c = (Raise ZeroDivisionError, c')
  ∧ _gmat_data c' = _gmat_data c ∧ _cmat_data c' = _cmat_data c.
Proof.
  intros Hres Hne Hr.
  rewrite (add_res_after_resolution _ _ _ _ _ _ _ Hres Hne).
  destruct (resolve_all_spec [p_name; n_name] c) as (l & c2 & Hl & Hg & Hcm & _).
  rewrite Hres in Hl. injection Hl as _ <-.
  destruct (swap_lt a b) as [p n]. unfold py_inv, bind. by rewrite Hr.
Qed.

Lemma add_res_zero_resistance_witness :
  (add_res 0 "a" "gnd" rc_lowpass).1 = Raise ZeroDivisionError.
Proof.
  edestruct (add_res_zero_resistance 0 "a" "gnd" rc_lowpass 2 (-1)) as (H & _);
    [vm_compute; reflexivity | lia | reflexivity |].
  rewrite H. reflexivity.
Defined.

(** X6: a raising call is not undone.  When G[p,p] is present but G[p,n]
    is not, [add_res] raises [KeyError] after it has already increased
    G[p,p]: the circuit is left with a partial stamp. *)
Theorem add_res_partial_stamp res p_name n_name c a b c' p n gpp :
  resolve_all [p_name; n_name] c = (Ok [a; b], c') → a ≠ b →
  swap_lt a b = (p, n) → 0 ≤ n → Qeq_bool res 0 = false →
  _gmat_data c !! (p, p) = Some gpp → _gmat_data c !! (p, n) = None →
  add_res res p_name n_name c =
    (Raise KeyError,
     mkLTI (_n c') (<[(p, p) := (gpp + / res)%Q]> (_gmat_data c))
           (_cmat_data c) (_node_id c')).
Proof.
  intros Hres Hne Hswap Hn Hr Hpp Hpn.
  rewrite (add_res_after_resolution _ _ _ _ _ _ _ Hres Hne), Hswap.
  destruct (resolve_all_spec [p_name; n_name] c) as (l & c2 & Hl & Hg & Hc & _).
  rewrite Hres in Hl. injection Hl as _ <-.
  assert (Hpn' : p ≠ n).
  { unfold swap_lt in Hswap. destruct (a <? b); injection Hswap as <- <-; congruence. }
  unfold py_inv. rewrite Hr. unfold bind, ret, gmat_iadd, gmat_isub, dict_iadd, dict_isub.
  simpl. rewrite Hg, Hpp. simpl.
  apply Z.leb_le in Hn. rewrite Hn. simpl.
  rewrite lookup_insert_ne by congruence. rewrite Hpn. simpl.
  by rewrite Hc.
Qed.

Lemma add_res_partial_stamp_witness :
  (add_res 2 "in" "out"
     (mkLTI 2 (<[(1, 1) := 0%Q]> ∅) ∅ (_node_id rc_lowpass))).1 = Raise KeyError
  ∧ _gmat_data
      (add_res 2 "in" "out"
         (mkLTI 2 (<[(1, 1) := 0%Q]> ∅) ∅ (_node_id rc_lowpass))).2 !! (1, 1)
    = Some (0 + / 2)%Q.
Proof.
  rewrite (add_res_partial_stamp 2 "in" "out"
             (mkLTI 2 (<[(1, 1) := 0%Q]> ∅) ∅ (_node_id rc_lowpass))
             1 0 (mkLTI 2 (<[(1, 1) := 0%Q]> ∅) ∅ (_node_id rc_lowpass)) 1 0 0%Q);
    [ split; [reflexivity | apply lookup_insert_eq]
    | vm_compute; reflexivity | lia | reflexivity | lia | reflexivity
    | reflexivity | reflexivity ].
Defined.

Lemma resolve_seen c p_name n_name i j :
  _node_id c !! p_name = Some i → _node_id c !! n_name = Some j →
  resolve_all [p_name; n_name] c = (Ok [i; j], c).
Proof.
  intros Hi Hj. simpl. unfold bind, ret.
  by rewrite (get_node_id_seen _ _ _ Hi), (get_node_id_seen _ _ _ Hj).
Qed.

Lemma self_loop_seen k c i :
  resolve_all (terminals k) c = (Ok [i; i], c) →
  (∃ v p n, k = CallRes v p n ∨ k = CallCap v p n) →
  run k c = (Ok tt, c).
Proof.
  intros Hres (v & p & n & Hk).
  assert (Hloop : self_loop k c) by (destruct Hk as [-> | ->]; by exists i, c).
  destruct (self_loop_run k c Hloop) as (l & Hl & Hok).
  rewrite Hres in Hl. injection Hl as _ Hc.
  destruct (run k c) as [r c2]. simpl in *. by subst.
Qed.

(** X7: for registered names the order of the two terminals does not
    matter: [add_res] and [add_cap] put the larger index first before they
    stamp, so swapping the names gives the same outcome and the same
    state. *)
Theorem two_terminal_order_irrelevant c p_name n_name i j :
  _node_id c !! p_name = Some i → _node_id c !! n_name = Some j →
  (∀ res, add_res res p_name n_name c = add_res res n_name p_name c)
  ∧ (∀ cap, add_cap cap p_name n_name c = add_cap cap n_name p_name c).
Proof.
  intros Hi Hj.
  assert (Hsw : i ≠ j → swap_lt i j = swap_lt j i).
  { intros Hne. unfold swap_lt.
    destruct (i <? j) eqn:E1, (j <? i) eqn:E2; try done; lia. }
  pose proof (resolve_seen c _ _ _ _ Hi Hj) as Hpn.
  pose proof (resolve_seen c _ _ _ _ Hj Hi) as Hnp.
  destruct (decide (i = j)) as [->|Hne].
  - split; intros v.
    + change (run (CallRes v p_name n_name) c = run (CallRes v n_name p_name) c).
      rewrite (self_loop_seen (CallRes v p_name n_name) c j Hpn) by eauto.
      by rewrite (self_loop_seen (CallRes v n_name p_name) c j Hnp) by eauto.
    + change (run (CallCap v p_name n_name) c = run (CallCap v n_name p_name) c).
      rewrite (self_loop_seen (CallCap v p_name n_name) c j Hpn) by eauto.
      by rewrite (self_loop_seen (CallCap v n_name p_name) c j Hnp) by eauto.
  - split; intros v.
    + rewrite (add_res_after_resolution _ _ _ _ _ _ _ Hpn Hne).
      rewrite (add_res_after_resolution _ _ _ _ _ _ _ Hnp) by congruence.
      by rewrite (Hsw Hne).
    + rewrite (add_cap_after_resolution _ _ _ _ _ _ _ Hpn Hne).
      rewrite (add_cap_after_resolution _ _ _ _ _ _ _ Hnp) by congruence.
      by rewrite (Hsw Hne).
Qed.

Lemma two_terminal_order_irrelevant_witness :
  add_res 2 "in" "out" rc_lowpass = add_res 2 "out" "in" rc_lowpass.
Proof.
  apply (two_terminal_order_irrelevant rc_lowpass "in" "out" 1 0); reflexivity.
Defined.

(** X8: with one terminal at ground only the diagonal entry of the other
    node is stamped: [add_res] adds [1/res] to G[p,p], [add_cap] adds [cap]
    to C[p,p], and no entry with a ground index is read or written. *)
Theorem grounded_element_stamp p_name n_name c a b c' p n :
  resolve_all [p_name; n_name] c = (Ok [a; b], c') → a ≠ b →
  swap_lt a b = (p, n) → n < 0 →
  (∀ res gpp, Qeq_bool res 0 = false → _gmat_data c !! (p, p) = Some gpp →
     add_res res p_name n_name c =
       (Ok tt, mkLTI (_n c') (<[(p, p) := (gpp + / res)%Q]> (_gmat_data c))
                     (_cmat_data c) (_node_id c')))
  ∧ (∀ cap cpp, _cmat_data c !! (p, p) = Some cpp →
     add_cap cap p_name n_name c =
       (Ok tt, mkLTI (_n c') (_gmat_data c)
                     (<[(p, p) := (cpp + cap)%Q]> (_cmat_data c)) (_node_id c'))).
Proof.
  intros Hres Hne Hswap Hn.
  destruct (resolve_all_spec [p_name; n_name] c) as (l & c2 & Hl & Hg & Hc & _).
  rewrite Hres in Hl. injection Hl as _ <-.
  assert (Hn' : (0 <=? n) = false) by (apply Z.leb_gt; lia).
  split.
  - intros res gpp Hr Hpp.
    rewrite (add_res_after_resolution _ _ _ _ _ _ _ Hres Hne), Hswap.
    unfold py_inv. rewrite Hr. unfold bind, ret, gmat_iadd, dict_iadd.
    simpl. rewrite Hg, Hpp. simpl. rewrite Hn'. simpl. by rewrite Hc.
  - intros cap cpp Hpp.
    rewrite (add_cap_after_resolution _ _ _ _ _ _ _ Hres Hne), Hswap.
    unfold bind, ret, cmat_iadd, dict_iadd.
    simpl. rewrite Hc, Hpp. simpl. rewrite Hn'. simpl. by rewrite Hg.
Qed.

Lemma grounded_element_stamp_witness :
  add_cap 4 "gnd" "out" rc_lowpass =
    (Ok tt, mkLTI 2 (_gmat_data rc_lowpass)
                  (<[(0, 0) := (3 + 4)%Q]> (_cmat_data rc_lowpass))
                  (_node_id rc_lowpass)).
Proof.
  apply (proj2 (grounded_element_stamp "gnd" "out" rc_lowpass (-1) 0 rc_lowpass 0 (-1)
                  eq_refl ltac:(lia) eq_refl ltac:(lia))).
  reflexivity.
Defined.

(** X10: the stamp of a controlled source with four non-ground terminals
    and its four entries present: G[p,cp] and G[n,cn] grow by [gm],
    G[n,cp] and G[p,cn] shrink by it, nothing else changes. *)
Theorem add_gm_stamp_on_present_keys
    gm p_name n_name cp_name cn_name c a b x y c' v1 v2 v3 v4 :
  resolve_all [p_name; n_name; cp_name; cn_name] c = (Ok [a; b; x; y], c') →
  a ≠ b → x ≠ y → 0 ≤ a → 0 ≤ b → 0 ≤ x → 0 ≤ y →
  _gmat_data c !! (a, x) = Some v1 → _gmat_data c !! (b, x) = Some v2 →
  _gmat_data c !! (a, y) = Some v3 → _gmat_data c !! (b, y) = Some v4 →
  add_gm gm p_name n_name cp_name cn_name c =
    (Ok tt,
     mkLTI (_n c')
       (<[(b, y) := (v4 + gm)%Q]> (<[(a, y) := (v3 - gm)%Q]>
          (<[(b, x) := (v2 - gm)%Q]> (<[(a, x) := (v1 + gm)%Q]>
             (_gmat_data c)))))
       (_cmat_data c) (_node_id c')).
Proof.
  intros Hres Hab Hxy Ha Hb Hx Hy H1 H2 H3 H4.
  rewrite (add_gm_after_resolution _ _ _ _ _ _ _ _ _ _ _ Hres).
  destruct (resolve_all_spec [p_name; n_name; cp_name; cn_name] c)
    as (l & c2 & Hl & Hg & Hc & _).
  rewrite Hres in Hl. injection Hl as _ <-.
  apply Z.eqb_neq in Hab as Hab', Hxy as Hxy'. rewrite Hab', Hxy'. cbn [orb].
  apply Z.leb_le in Ha, Hb, Hx, Hy. rewrite Ha, Hb, Hx, Hy.
  unfold when_, bind, ret, gmat_iadd, gmat_isub, dict_iadd, dict_isub.
  simpl. rewrite Hg, H1. simpl.
  rewrite lookup_insert_ne by congruence. rewrite H2. simpl.
  rewrite !lookup_insert_ne by congruence. rewrite H3. simpl.
  rewrite !lookup_insert_ne by congruence. rewrite H4. simpl.
  by rewrite Hc.
Qed.

Lemma add_gm_stamp_on_present_keys_witness :
  (add_gm 7 "in" "out" "out" "in" rc_lowpass).1 = Ok tt
  ∧ _gmat_data (add_gm 7 "in" "out" "out" "in" rc_lowpass).2 !! (1, 0)
    = Some (- (1 # 2) + 7)%Q.
Proof.
  rewrite (add_gm_stamp_on_present_keys 7 "in" "out" "out" "in" rc_lowpass
             1 0 0 1 rc_lowpass (- (1 # 2)) (1 # 2) (1 # 2) (- (1 # 2)));
    [ split; [reflexivity | vm_compute; reflexivity]
    | reflexivity | lia | lia | lia | lia | lia | lia
    | reflexivity | reflexivity | reflexivity | reflexivity ].
Defined.



(** * The sparse materialiser *)

Lemma lookup_map {A B} (f : A → B) (l : list A) (i : nat) :
  map f l !! i = f <$> (l !! i).
Proof. revert i. induction l as [|x l IH]; intros [|i]; simpl; auto. Qed.

(** Among items with distinct keys, the values found under one key. *)
Lemma values_at_key (l : list (Z * Z * Q)) (k : Z * Z) :
  NoDup (l.*1) →
  (∀ v, (k, v) ∈ l → map snd (filter (fun t => t.1 = k) l) = [v])
  ∧ ((∀ v, (k, v) ∉ l) → map snd (filter (fun t => t.1 = k) l) = []).
Proof.
  induction l as [|[k' v'] l IH]; intros Hnd.
  - split; [intros v H; by apply elem_of_nil in H | done].
  - rewrite fmap_cons in Hnd. apply NoDup_cons in Hnd as [Hk' Hnd].
    destruct (IH Hnd) as [IH1 IH2].
    destruct (decide (k' = k)) as [->|Hne].
    + rewrite filter_cons_True by done.
      assert (Hno : ∀ v, (k, v) ∉ l).
      { intros v Hv. apply Hk'. by apply (list_elem_of_fmap_2 fst) in Hv. }
      cbn [map snd]. rewrite (IH2 Hno). split.
      * intros v [[= ->]|Hv]%elem_of_cons; [done|]. by destruct (Hno v).
      * intros H. destruct (H v'). left.
    + rewrite filter_cons_False by done. split.
      * intros v [[= ? ?]|Hv]%elem_of_cons; [done|]. by apply IH1.
      * intros H. apply IH2. intros v Hv. apply (H v). by right.
Qed.

Lemma NoDup_fst_filter (P : Z * Z * Q → Prop) `{∀ t, Decision (P t)}
    (l : list (Z * Z * Q)) :
  NoDup (l.*1) → NoDup ((filter P l).*1).
Proof.
  induction l as [|t l IH]; [done|]. rewrite fmap_cons. intros [Ht Hnd]%NoDup_cons.
  destruct (decide (P t)).
  - rewrite filter_cons_True by done. rewrite fmap_cons. apply NoDup_cons.
    split; [|by apply IH]. intros (t' & Heq & [_ Hin]%list_elem_of_filter)%list_elem_of_fmap.
    apply Ht. rewrite Heq. by apply list_elem_of_fmap_2.
  - rewrite filter_cons_False by done. by apply IH.
Qed.

(** X12: materialisation is faithful.  When [dict_to_csc_mat] succeeds,
    the entry at an in-range position is the value stored in the table
    under that coordinate, zero where nothing is stored, and zero all
    along the ignored row and the ignored column: ignored lines are
    blanked in place, the lines after them keep their numbers. *)
Theorem dict_to_csc_mat_entries table m n ignore_row ignore_col a i j :
  dict_to_csc_mat table (m, n) ignore_row ignore_col = Ok a →
  0 ≤ i < m → 0 ≤ j < n →
  mat_get a i j =
    Ok (if decide (i ≠ ignore_row ∧ j ≠ ignore_col)
        then default 0%Q (table !! (i, j)) else 0%Q).
Proof.
  intros Ha Hi Hj. unfold dict_to_csc_mat, csc_matrix in Ha.
  repeat match type of Ha with
         | (if ?b then _ else _) = _ => destruct b; [discriminate Ha|]
         end.
  injection Ha as <-. unfold mat_get. cbn [nrows ncols mrows].
  rewrite !np_index_in_range by done. cbn [obind].
  rewrite lookup_map, lookup_seqZ_lt by lia. cbn [fmap option_fmap option_map].
  rewrite lookup_map, lookup_seqZ_lt by lia. cbn [fmap option_fmap option_map].
  rewrite !Z.add_0_l, !Z2Nat.id by lia. f_equal. unfold coo_entry.
  set (items := filter _ (map_to_list table)).
  assert (Hnd : NoDup (items.*1))
    by apply NoDup_fst_filter, NoDup_fst_map_to_list.
  destruct (values_at_key items (i, j) Hnd) as [Hsome Hnone].
  assert (Hin : ∀ v, ((i, j), v) ∈ items
                     ↔ (i ≠ ignore_row ∧ j ≠ ignore_col) ∧ table !! (i, j) = Some v).
  { intros v. subst items. rewrite list_elem_of_filter, elem_of_map_to_list. done. }
  case_decide as Hkeep.
  - destruct (table !! (i, j)) as [v|] eqn:E.
    + rewrite (Hsome v); [done|]. by apply Hin.
    + rewrite Hnone; [done|]. intros v [_ Hv]%Hin. congruence.
  - rewrite Hnone; [done|]. intros v [Hk _]%Hin. by apply Hkeep.
Qed.

Lemma dict_to_csc_mat_entries_witness :
  ∃ a, dict_to_csc_mat (_gmat_data rc_lowpass) (1, 1) 1 1 = Ok a
       ∧ mat_get a 0 0 = Ok (1 # 2)%Q.
Proof.
  eexists. split; [vm_compute; reflexivity|].
  rewrite (dict_to_csc_mat_entries (_gmat_data rc_lowpass) 1 1 1 1 _ 0 0);
    [reflexivity | vm_compute; reflexivity | lia | lia].
Defined.

Lemma existsb_false_Forall {A} (f : A → bool) (l : list A) :
  existsb f l = false ↔ Forall (fun x => f x = false) l.
Proof.
  induction l as [|x l IH]; simpl; [split; [constructor|done]|].
  rewrite orb_false_iff, IH. split; [intros []; by constructor | by inversion 1].
Qed.

(** X13: [dict_to_csc_mat] succeeds exactly when the shape is not
    negative and every entry outside the ignored row and column lies
    inside the shape; an entry out of range makes it raise. *)
Theorem dict_to_csc_mat_succeeds_iff table m n ignore_row ignore_col :
  (∃ a, dict_to_csc_mat table (m, n) ignore_row ignore_col = Ok a)
  ↔ 0 ≤ m ∧ 0 ≤ n
    ∧ ∀ r k v, table !! (r, k) = Some v → r ≠ ignore_row → k ≠ ignore_col →
               0 ≤ r < m ∧ 0 ≤ k < n.
Proof.
  unfold dict_to_csc_mat, csc_matrix.
  set (items := filter _ (map_to_list table)).
  assert (Hin : ∀ r k v, ((r, k), v) ∈ items
                     ↔ (r ≠ ignore_row ∧ k ≠ ignore_col) ∧ table !! (r, k) = Some v).
  { intros r k v. subst items. rewrite list_elem_of_filter, elem_of_map_to_list. done. }
  split.
  - intros [a Ha].
    destruct ((m <? 0) || (n <? 0)) eqn:E0; [done|].
    destruct (existsb _ items) eqn:E1 in Ha; [done|].
    destruct (existsb _ items) eqn:E2 in Ha; [done|].
    destruct (existsb _ items) eqn:E3 in Ha; [done|].
    destruct (existsb _ items) eqn:E4 in Ha; [done|].
    apply orb_false_iff in E0 as [Em En].
    rewrite existsb_false_Forall, Forall_forall in E1, E2, E3, E4.
    split; [lia|]. split; [lia|]. intros r k v Hv Hr Hk.
    assert (Hi : ((r, k), v) ∈ items) by (apply Hin; tauto).
    specialize (E1 _ Hi). specialize (E2 _ Hi).
    specialize (E3 _ Hi). specialize (E4 _ Hi). simpl in *. lia.
  - intros (Hm & Hn & Hall).
    assert (Hf : ∀ f : Z * Z * Q → bool,
              (∀ r k v, 0 ≤ r < m → 0 ≤ k < n → f ((r, k), v) = false) →
              existsb f items = false).
    { intros f Hf. apply existsb_false_Forall, Forall_forall.
      intros [[r k] v] [[Hr Hk] Hv]%Hin. destruct (Hall r k v Hv Hr Hk). by apply Hf. }
    destruct ((m <? 0) || (n <? 0)) eqn:E0.
    { apply orb_true_iff in E0 as [E|E]; lia. }
    rewrite !Hf; [eauto | | | |]; intros r k v Hr Hk; simpl; lia.
Qed.

(** * Further properties of the queries *)

(** X14: the voltage-gain query drops the input row without renumbering
    the rows after it.  So unless the input is the last node, any
    conductance entry in the last row no longer fits the
    (n-1)-row shape and the query raises the library's [ValueError]. *)
Theorem voltage_gain_input_must_be_last
    (factorized : matrix → option (matrix → matrix))
    c in_name out_name node_in node_out k v :
  _node_id c !! in_name = Some node_in →
  _node_id c !! out_name = Some node_out →
  node_in ≠ node_out → node_in ≠ _n c - 1 → 1 ≤ _n c → 0 ≤ k →
  _gmat_data c !! (_n c - 1, k) = Some v →
  voltage_gain_state_space factorized c in_name out_name
    = Raise (ValueError "row index exceeds matrix dimensions").
Proof.
  intros Hi Hj Hne Hlast Hn Hk Hv.
  unfold voltage_gain_state_space, node_of. rewrite Hi, Hj. cbn [obind].
  apply Z.eqb_neq in Hne. rewrite Hne.
  unfold voltage_gain_matrices, dict_to_csc_mat, csc_matrix.
  assert ((_n c - 1 <? 0) || (_n c <? 0) = false) as ->.
  { apply orb_false_iff. split; apply Z.ltb_ge; lia. }
  set (items := filter _ (map_to_list (_gmat_data c))).
  assert (existsb (fun t : Z * Z * Q => _n c - 1 <=? t.1.1) items = true) as ->; [|done].
  apply existsb_exists. exists ((_n c - 1, k), v). split; [|simpl; lia].
  apply list_elem_of_In. subst items.
  apply list_elem_of_filter. split; [simpl; split; lia|].
  by apply elem_of_map_to_list.
Qed.

Lemma voltage_gain_input_must_be_last_witness :
  voltage_gain_state_space factorized_1x1 rc_lowpass "out" "in"
    = Raise (ValueError "row index exceeds matrix dimensions").
Proof.
  apply (voltage_gain_input_must_be_last factorized_1x1 rc_lowpass "out" "in"
           0 1 1 (1 # 2)%Q); try reflexivity; simpl; lia.
Defined.

Lemma np_index_minus_one len : 1 ≤ len → np_index len (-1) = np_index len (len - 1).
Proof.
  intros H. unfold np_index.
  destruct (0 <=? -1) eqn:E1; [lia|].
  destruct (0 <=? len - 1) eqn:E2; [|lia].
  destruct (len - 1 <? len) eqn:E3; [|lia].
  destruct (- len <=? -1) eqn:E4; [|lia].
  simpl. f_equal. lia.
Qed.

(** X15: ground is index -1, and numpy reads -1 as "the last".  In the
    impedance-gain query without a shorted node, naming a ground alias as
    input or as output gives the very model obtained by naming the last
    registered node. *)
Theorem impedance_ground_means_last_node
    (factorized : matrix → option (matrix → matrix)) c gnd_name last_name :
  _node_id c !! gnd_name = Some (-1) →
  _node_id c !! last_name = Some (_n c - 1) →
  1 ≤ _n c →
  (∀ out_name,
     impedance_gain_state_space factorized c gnd_name out_name ""
     = impedance_gain_state_space factorized c last_name out_name "")
  ∧ (∀ in_name,
     impedance_gain_state_space factorized c in_name gnd_name ""
     = impedance_gain_state_space factorized c in_name last_name "").
Proof.
  intros Hg Hl Hn.
  assert (Hmat : ∀ i j, impedance_gain_matrices c i j "" =
            (let? gmat := dict_to_csc_mat (_gmat_data c) (_n c, _n c) (-1) (-1) in
             let? cmat := dict_to_csc_mat (_cmat_data c) (_n c, _n c) (-1) (-1) in
             Ok ((_n c, _n c), gmat, cmat, i, j))) by done.
  assert (Hz1 : np_zeros (_n c) 1
                = Ok (mkMat (_n c) 1 (replicate (Z.to_nat (_n c)) (replicate 1 0%Q)))).
  { unfold np_zeros. destruct ((_n c <? 0) || (1 <? 0)) eqn:E; [|done].
    apply orb_true_iff in E as [E|E]; lia. }
  assert (Hz2 : np_zeros 1 (_n c)
                = Ok (mkMat 1 (_n c) (replicate 1 (replicate (Z.to_nat (_n c)) 0%Q)))).
  { unfold np_zeros. destruct ((1 <? 0) || (_n c <? 0)) eqn:E; [|done].
    apply orb_true_iff in E as [E|E]; lia. }
  split.
  - intros out_name. unfold impedance_gain_state_space, node_of. rewrite Hg, Hl.
    destruct (_node_id c !! out_name) as [j|]; [|done]. cbn [obind].
    rewrite !Hmat.
    destruct (dict_to_csc_mat (_gmat_data c) (_n c, _n c) (-1) (-1)) as [gm|]; [|done].
    destruct (dict_to_csc_mat (_cmat_data c) (_n c, _n c) (-1) (-1)) as [cm|]; [|done].
    cbn [obind]. destruct (factorize factorized cm) as [sf|]; [|done]. cbn [obind].
    unfold impedance_gain_model. cbn [fst]. rewrite Hz1. cbn [obind].
    unfold mat_set at 1 3. cbn [nrows ncols mrows].
    by rewrite (np_index_minus_one _ Hn).
  - intros in_name. unfold impedance_gain_state_space, node_of. rewrite Hg, Hl.
    destruct (_node_id c !! in_name) as [i|]; [|done]. cbn [obind].
    rewrite !Hmat.
    destruct (dict_to_csc_mat (_gmat_data c) (_n c, _n c) (-1) (-1)) as [gm|]; [|done].
    destruct (dict_to_csc_mat (_cmat_data c) (_n c, _n c) (-1) (-1)) as [cm|]; [|done].
    cbn [obind]. destruct (factorize factorized cm) as [sf|]; [|done]. cbn [obind].
    unfold impedance_gain_model. cbn [fst]. rewrite Hz1. cbn [obind].
    destruct (mat_set _ i 0 (-1)%Q) as [bm|]; [|done]. cbn [obind].
    rewrite Hz2. cbn [obind].
    unfold mat_set. cbn [nrows ncols mrows].
    by rewrite (np_index_minus_one _ Hn).
Qed.

Lemma impedance_ground_means_last_node_witness :
  let c := mkLTI 1 (<[(0, 0) := (1 # 2)%Q]> ∅) (<[(0, 0) := 3%Q]> ∅)
                 (<["out" := 0]> (_node_id init)) in
  impedance_gain_state_space factorized_1x1 c "gnd" "out" ""
  = impedance_gain_state_space factorized_1x1 c "out" "out" "".
Proof.
  intros c.
  assert (H1 : _node_id c !! "gnd" = Some (-1)) by (vm_compute; reflexivity).
  assert (H2 : _node_id c !! "out" = Some (_n c - 1)) by (vm_compute; reflexivity).
  assert (H3 : 1 ≤ _n c) by (simpl; lia).
  exact (proj1 (impedance_ground_means_last_node factorized_1x1 c "gnd" "out" H1 H2 H3)
           "out").
Defined.

Section MoreQueryProperties.
Variable factorized : matrix → option (matrix → matrix).
Variable ss2tf : matrix → matrix → matrix → matrix → list Q * list Q.
Variable np_pi : Q.
Variable freqresp : TransferFunctionContinuous → list Q → list Q * list (Q * Q).

Lemma impedance_gain_shorted c in_name out_name short_name i j k atol :
  _node_id c !! in_name = Some i → _node_id c !! out_name = Some j →
  short_name ≠ "" → _node_id c !! short_name = Some k →
  i = k ∨ j = k →
  get_impedance_gain_system factorized ss2tf c in_name out_name short_name atol
    = Raise ShortedPortError.
Proof.
  intros Hi Hj Hs Hk H.
  unfold get_impedance_gain_system, impedance_gain_state_space, node_of.
  rewrite Hi, Hj. cbn [obind]. unfold impedance_gain_matrices, node_of.
  rewrite bool_decide_true by done. rewrite Hk. cbn [obind].
  assert ((i =? k) || (j =? k) = true) as ->; [|done].
  apply orb_true_iff. destruct H as [->| ->]; rewrite Z.eqb_refl; tauto.
Qed.

Lemma get_impedance_raise c node_name freq short_name atol e :
  get_impedance factorized ss2tf np_pi freqresp c node_name freq short_name atol
    = Raise e →
  e = IndexError
  ∨ get_impedance_gain_system factorized ss2tf c node_name node_name short_name atol
      = Raise e.
Proof.
  unfold get_impedance.
  intros [H|(sys & _ & H)]%obind_raise; [by right|]. left.
  destruct (freqresp sys _) as [w zin]. destruct (zin !! 0%nat); congruence.
Qed.

(** X16: [get_impedance] is the impedance-gain query with the node as
    input and as output, evaluated by the library at [2 * pi * freq].  For a
    registered node it raises the shorted-port error exactly when a
    non-empty short name holds the node's own index, it never raises the
    same-node error, and a returned value is the first response of the
    transfer function that query returns. *)
Theorem get_impedance_behaviour c node_name freq short_name atol i :
  _node_id c !! node_name = Some i →
  (∀ k, short_name ≠ "" → _node_id c !! short_name = Some k →
        get_impedance factorized ss2tf np_pi freqresp c node_name freq short_name atol
          = Raise ShortedPortError
        ↔ i = k)
  ∧ get_impedance factorized ss2tf np_pi freqresp c node_name freq short_name atol
      ≠ Raise SameNodeError
  ∧ (∀ z, get_impedance factorized ss2tf np_pi freqresp c node_name freq short_name atol
            = Ok z →
          ∃ sys,
            get_impedance_gain_system factorized ss2tf c
              node_name node_name short_name atol = Ok sys
            ∧ (freqresp sys [(2 * np_pi * freq)%Q]).2 !! 0%nat = Some z).
Proof.
  intros Hi. split_and!.
  - intros k Hs Hk. split.
    + intros [H|H]%get_impedance_raise; [discriminate H|].
      apply impedance_gain_raise in H
        as [H|(i' & j' & Hi' & Hj' & [(_ & _ & k' & Hk' & H)|[H _]])].
      * exfalso. apply H. unfold module_error. tauto.
      * destruct H; congruence.
      * discriminate H.
    + intros <-. unfold get_impedance.
      rewrite (impedance_gain_shorted c _ _ _ i i i atol Hi Hi Hs Hk); [done|tauto].
  - intros [H|H]%get_impedance_raise; [discriminate H|].
    apply impedance_gain_raise in H as [H|(i' & j' & _ & _ & [[H _]|[H _]])].
    + apply H. unfold module_error. tauto.
    + discriminate H.
    + discriminate H.
  - intros z. unfold get_impedance. intros (sys & Hsys & H)%obind_ok.
    exists sys. split; [done|].
    destruct (freqresp sys _) as [w zin]. simpl.
    destruct (zin !! 0%nat); congruence.
Qed.

(** X17: the queries only read the registry.  A name that was never
    registered makes them raise [KeyError]: the input name first, then the
    output name, then (impedance query, non-empty short name) the short
    name, each before any matrix is built. *)
Theorem queries_reject_unknown_names c in_name out_name short_name atol :
  (_node_id c !! in_name = None →
     get_voltage_gain_system factorized ss2tf c in_name out_name atol = Raise KeyError
     ∧ get_impedance_gain_system factorized ss2tf c in_name out_name short_name atol
       = Raise KeyError
     ∧ ∀ freq, get_impedance factorized ss2tf np_pi freqresp c in_name freq short_name atol
               = Raise KeyError)
  ∧ (is_Some (_node_id c !! in_name) → _node_id c !! out_name = None →
     get_voltage_gain_system factorized ss2tf c in_name out_name atol = Raise KeyError
     ∧ get_impedance_gain_system factorized ss2tf c in_name out_name short_name atol
       = Raise KeyError)
  ∧ (is_Some (_node_id c !! in_name) → is_Some (_node_id c !! out_name) →
     short_name ≠ "" → _node_id c !! short_name = None →
     get_impedance_gain_system factorized ss2tf c in_name out_name short_name atol
       = Raise KeyError).
Proof.
  split_and!.
  - intros Hi.
    assert (Himp : ∀ o, get_impedance_gain_system factorized ss2tf c in_name o
                          short_name atol = Raise KeyError).
    { intros o. unfold get_impedance_gain_system, impedance_gain_state_space, node_of.
      by rewrite Hi. }
    split_and!; [|apply Himp|].
    + unfold get_voltage_gain_system, voltage_gain_state_space, node_of. by rewrite Hi.
    + intros freq. unfold get_impedance. by rewrite Himp.
  - intros [i Hi] Hj. split.
    + unfold get_voltage_gain_system, voltage_gain_state_space, node_of.
      by rewrite Hi, Hj.
    + unfold get_impedance_gain_system, impedance_gain_state_space, node_of.
      by rewrite Hi, Hj.
  - intros [i Hi] [j Hj] Hs Hk.
    unfold get_impedance_gain_system, impedance_gain_state_space, node_of.
    rewrite Hi, Hj. cbn [obind]. unfold impedance_gain_matrices, node_of.
    rewrite bool_decide_true by done. by rewrite Hk.
Qed.

End MoreQueryProperties.

Lemma get_impedance_behaviour_witness :
  _node_id rc_lowpass !! "out" = Some 0
  ∧ get_impedance factorized_1x1 ss2tf_1x1 3 (fun _ _ => ([], [])) rc_lowpass
      "out" 1 "out" 0 = Raise ShortedPortError.
Proof.
  assert (H : _node_id rc_lowpass !! "out" = Some 0) by reflexivity.
  split; [exact H|].
  apply (proj1 (get_impedance_behaviour factorized_1x1 ss2tf_1x1 3 (fun _ _ => ([], []))
                  rc_lowpass "out" 1 "out" 0 0 H) 0); [done | exact H | reflexivity].
Defined.

Lemma queries_reject_unknown_names_witness :
  _node_id rc_lowpass !! "nowhere" = None
  ∧ get_voltage_gain_system factorized_1x1 ss2tf_1x1 rc_lowpass "nowhere" "out" 0
    = Raise KeyError.
Proof.
  assert (H : _node_id rc_lowpass !! "nowhere" = None) by reflexivity.
  split; [exact H|].
  exact (proj1 (proj1 (queries_reject_unknown_names factorized_1x1 ss2tf_1x1 3
                         (fun _ _ => ([], [])) rc_lowpass "nowhere" "out" "" 0) H)).
Defined.

(** * The registry follows the order of first use *)

Lemma index_of_None x l : index_of x l = None ↔ x ∉ l.
Proof.
  induction l as [|y l IH]; simpl.
  - split; [intros _ H; by apply elem_of_nil in H | done].
  - case_decide as E.
    + subst. split; [done|]. intros H. destruct H. left.
    + destruct (index_of x l) eqn:Ei; simpl.
      * split; [done|]. intros H.
        assert (Hx : x ∉ l) by (intros Hx; apply H; by right).
        by apply IH in Hx.
      * split; [|done]. intros _ [?|Hx]%elem_of_cons; [done|]. by apply IH in Hx.
Qed.

Lemma index_of_snoc x y l :
  index_of x (l ++ [y]) =
    match index_of x l with
    | Some i => Some i
    | None => if decide (x = y) then Some (length l) else None
    end.
Proof.
  induction l as [|z l IH]; simpl.
  - by destruct (decide (x = y)).
  - destruct (decide (x = z)); [done|]. rewrite IH.
    destruct (index_of x l); simpl; [done|]. by destruct (decide (x = y)).
Qed.

Lemma first_use_app seen l1 l2 :
  first_use seen (l1 ++ l2) = first_use (first_use seen l1) l2.
Proof.
  revert seen. induction l1 as [|x l1 IH]; intros seen; [done|].
  simpl. case_decide; apply IH.
Qed.

Lemma laid_out_init : laid_out [] init.
Proof.
  split; [done|]. intros x. unfold expected_index, reserved_names, init. simpl.
  destruct (decide (x ∈ ["gnd"; "vss"; "vdd"])) as [H|H].
  - apply elem_of_cons in H as [->|H]; [reflexivity|].
    apply elem_of_cons in H as [->|H]; [reflexivity|].
    apply elem_of_cons in H as [->|H]; [reflexivity|].
    by apply elem_of_nil in H.
  - rewrite !lookup_insert_ne; [by rewrite lookup_empty| | |];
      intros <-; apply H; set_solver.
Qed.

Lemma laid_out_get_node_id order c x :
  laid_out order c → laid_out (first_use order [x]) (_get_node_id x c).2.
Proof.
  intros [Hn Hl]. cbn [first_use].
  pose proof (Hl x) as Hx. unfold expected_index in Hx.
  destruct (decide (x ∈ reserved_names ∨ x ∈ order)) as [Hin|Hout].
  - assert (is_Some (_node_id c !! x)) as [i Hi].
    { rewrite Hx. destruct (decide (x ∈ reserved_names)); [eauto|].
      destruct Hin as [?|Hin]; [done|].
      destruct (index_of x order) eqn:Ei; [eauto|]. by apply index_of_None in Ei. }
    rewrite (get_node_id_seen _ _ _ Hi). by split.
  - assert (Hno : index_of x order = None) by (apply index_of_None; tauto).
    assert (Hnone : _node_id c !! x = None).
    { rewrite Hx. rewrite decide_False by tauto. by rewrite Hno. }
    rewrite (get_node_id_fresh _ _ Hnone). split; simpl.
    + rewrite length_app, Hn. simpl. lia.
    + intros y. rewrite lookup_insert. unfold expected_index.
      destruct (decide (x = y)) as [<-|Hxy].
      * rewrite decide_False by tauto.
        rewrite index_of_snoc, Hno, decide_True by done. simpl. by rewrite Hn.
      * rewrite Hl. unfold expected_index.
        destruct (decide (y ∈ reserved_names)); [done|].
        rewrite index_of_snoc. destruct (index_of y order); [done|].
        by rewrite decide_False by congruence.
Qed.

Lemma laid_out_resolve_all order c names :
  laid_out order c → laid_out (first_use order names) (resolve_all names c).2.
Proof.
  revert order c. induction names as [|x names IH]; intros order c H; [done|].
  replace (first_use order (x :: names))
    with (first_use (first_use order [x]) names)
    by (cbn [first_use]; by destruct (decide _)).
  apply (laid_out_get_node_id _ _ x) in H.
  apply IH in H. revert H. cbn [app resolve_all]. unfold bind, ret.
  destruct (get_node_id_total x c) as (i & c1 & ->). simpl.
  destruct (resolve_all_spec names c1) as (l & c2 & -> & _). done.
Qed.

(** Once the names are resolved, the rest of a call leaves the registry
    alone. *)
Ltac keeps_registry :=
  repeat first
    [ apply keeps_ret | apply keeps_raise | apply keeps_py_inv | apply keeps_when
    | apply keeps_bind; [| intros ?]
    | match goal with
      | |- keeps _ (if ?b then _ else _) => destruct b
      | |- keeps _ (let '(_, _) := ?x in _) => destruct x
      | |- keeps _ (gmat_iadd _ _) =>
          let c := fresh in let H := fresh in
          intros c H; unfold gmat_iadd; cbn beta;
          destruct (dict_iadd (_gmat_data c) _ _); exact H
      | |- keeps _ (gmat_isub _ _) =>
          let c := fresh in let H := fresh in
          intros c H; unfold gmat_isub; cbn beta;
          destruct (dict_isub (_gmat_data c) _ _); exact H
      | |- keeps _ (cmat_iadd _ _) =>
          let c := fresh in let H := fresh in
          intros c H; unfold cmat_iadd; cbn beta;
          destruct (dict_iadd (_cmat_data c) _ _); exact H
      | |- keeps _ (cmat_isub _ _) =>
          let c := fresh in let H := fresh in
          intros c H; unfold cmat_isub; cbn beta;
          destruct (dict_isub (_cmat_data c) _ _); exact H
      end ].

Lemma run_after_resolution k c :
  simple_call k →
  ∃ rest : M unit,
    run k c = rest (resolve_all (terminals k) c).2
    ∧ ∀ order, keeps (laid_out order) rest.
Proof.
  destruct k as [res p n|cap p n|gm p n cp cn|]; [| | |done]; intros _;
    cbn [run terminals].
  - destruct (get_node_id_total p c) as (a & c1 & E1).
    destruct (get_node_id_total n c1) as (b & c' & E2).
    assert (Hl : resolve_all [p; n] c = (Ok [a; b], c'))
      by (simpl; unfold bind, ret; by rewrite E1, E2).
    exists (if a =? b then ret tt
            else let '(node_p, node_n) := swap_lt a b in
                 let* g := py_inv res in
                 gmat_iadd (node_p, node_p) g >>
                 when_ (0 <=? node_n)
                   (gmat_isub (node_p, node_n) g >>
                    gmat_iadd (node_n, node_n) g >>
                    gmat_isub (node_n, node_p) g)).
    split.
    + rewrite Hl. unfold add_res. unfold bind at 1. rewrite E1.
      unfold bind at 1. by rewrite E2.
    + intros order. unfold laid_out. keeps_registry.
  - destruct (get_node_id_total p c) as (a & c1 & E1).
    destruct (get_node_id_total n c1) as (b & c' & E2).
    assert (Hl : resolve_all [p; n] c = (Ok [a; b], c'))
      by (simpl; unfold bind, ret; by rewrite E1, E2).
    exists (if a =? b then ret tt
            else let '(node_p, node_n) := swap_lt a b in
                 cmat_iadd (node_p, node_p) cap >>
                 when_ (0 <=? node_n)
                   (cmat_isub (node_p, node_n) cap >>
                    cmat_iadd (node_n, node_n) cap >>
                    cmat_isub (node_n, node_p) cap)).
    split.
    + rewrite Hl. unfold add_cap. unfold bind at 1. rewrite E1.
      unfold bind at 1. by rewrite E2.
    + intros order. unfold laid_out. keeps_registry.
  - destruct (get_node_id_total p c) as (a & c1 & E1).
    destruct (get_node_id_total n c1) as (b & c2 & E2).
    destruct (get_node_id_total cp c2) as (x & c3 & E3).
    destruct (get_node_id_total cn c3) as (y & c' & E4).
    assert (Hl : resolve_all [p; n; cp; cn] c = (Ok [a; b; x; y], c'))
      by (simpl; unfold bind, ret; by rewrite E1, E2, E3, E4).
    eexists. split.
    + rewrite Hl. apply (add_gm_after_resolution gm) in Hl. exact Hl.
    + intros order. unfold laid_out. keeps_registry.
Qed.

Lemma laid_out_run order c k :
  simple_call k → laid_out order c →
  laid_out (first_use order (terminals k)) (run k c).2.
Proof.
  intros Hk H. destruct (run_after_resolution k c Hk) as (rest & -> & Hkeep).
  by apply Hkeep, laid_out_resolve_all.
Qed.

Lemma laid_out_foldl order c ks :
  Forall simple_call ks → laid_out order c →
  laid_out (first_use order (concat (terminals <$> ks)))
           (foldl (fun c k => (run k c).2) c ks).
Proof.
  intros Hks. revert order c. induction Hks as [|k ks Hk _ IH]; intros order c H; [done|].
  rewrite fmap_cons. cbn [concat foldl]. rewrite first_use_app.
  by apply IH, laid_out_run.
Qed.

(** X18: the registry is the order of first use.  After any sequence of
    [add_res], [add_cap] and [add_gm] calls on a fresh circuit, returned or
    raised, the node count is the number of distinct non-reserved names
    among the terminals, the reserved names sit at -1, and every other
    name holds its position in the order in which the names were first
    mentioned. *)
Theorem registry_follows_first_use ks :
  Forall simple_call ks →
  let order := first_use [] (concat (terminals <$> ks)) in
  _n (build ks) = Z.of_nat (length order)
  ∧ ∀ x, _node_id (build ks) !! x = expected_index order x.
Proof.
  intros Hks order. apply (laid_out_foldl [] init ks Hks laid_out_init).
Qed.

Lemma registry_follows_first_use_witness :
  let ks := [CallRes 2 "in" "out"; CallGm 1 "out" "gnd" "mid" "in"] in
  _n (build ks) = 3 ∧ _node_id (build ks) !! "mid" = Some 2.
Proof.
  intros ks.
  assert (H : Forall simple_call ks) by (repeat constructor).
  destruct (registry_follows_first_use ks H) as [H1 H2].
  split; [rewrite H1; reflexivity | rewrite H2; reflexivity].
Defined.

(** * The trimming step, once more *)

Lemma to_transfer_function_ok_witness :
  to_transfer_function ss2tf_1x1
    (mkMat 1 1 [[(-1 # 6)%Q]], mkMat 1 1 [[(1 # 3)%Q]],
     mkMat 1 1 [[1%Q]], mkMat 1 1 [[0%Q]]) 0
    = Ok (mkTF [(6 # 18)%Q] [1%Q; (1 # 6)%Q])
  ∧ tf_den (mkTF [(6 # 18)%Q] [1%Q; (1 # 6)%Q]) = [1%Q; (1 # 6)%Q].
Proof.
  assert (H : to_transfer_function ss2tf_1x1
                (mkMat 1 1 [[(-1 # 6)%Q]], mkMat 1 1 [[(1 # 3)%Q]],
                 mkMat 1 1 [[1%Q]], mkMat 1 1 [[0%Q]]) 0
              = Ok (mkTF [(6 # 18)%Q] [1%Q; (1 # 6)%Q]))
    by (vm_compute; reflexivity).
  split; [exact H|].
  exact (proj1 (to_transfer_function_ok ss2tf_1x1 _ _ _ _ 0 _ H)).
Defined.

Lemma trim_leading_idempotent_witness :
  trim_leading 0 [0%Q; 5%Q; 0%Q] = Ok [5%Q; 0%Q]
  ∧ trim_leading 0 [5%Q; 0%Q] = Ok [5%Q; 0%Q].
Proof.
  assert (H : trim_leading 0 [0%Q; 5%Q; 0%Q] = Ok [5%Q; 0%Q]) by reflexivity.
  split; [exact H|]. exact (trim_leading_idempotent 0 _ _ H).
Defined.

(** * The queries and the lines they delete

    [dict_to_csc_mat] drops the entries of the ignored row and column and
    leaves every other entry where it is.  The helpers below say when the
    materialisation succeeds and what its entries are. *)

Lemma kept_items table ignore_row ignore_col r k v :
  ((r, k), v) ∈ filter (fun t : Z * Z * Q => t.1.1 ≠ ignore_row ∧ t.1.2 ≠ ignore_col)
                       (map_to_list table)
  ↔ (r ≠ ignore_row ∧ k ≠ ignore_col) ∧ table !! (r, k) = Some v.
Proof. by rewrite list_elem_of_filter, elem_of_map_to_list. Qed.

Lemma materialise_ok table m n ignore_row ignore_col :
  0 ≤ m → 0 ≤ n →
  (∀ r k v, table !! (r, k) = Some v → r ≠ ignore_row → k ≠ ignore_col →
            0 ≤ r < m ∧ 0 ≤ k < n) →
  ∃ a, dict_to_csc_mat table (m, n) ignore_row ignore_col = Ok a.
Proof.
  intros Hm Hn Hall. unfold dict_to_csc_mat, csc_matrix.
  set (items := filter _ (map_to_list table)).
  assert (Hf : ∀ f : Z * Z * Q → bool,
            (∀ r k v, 0 ≤ r < m → 0 ≤ k < n → f ((r, k), v) = false) →
            existsb f items = false).
  { intros f Hf. apply existsb_false_Forall, Forall_forall.
    intros [[r k] v] [[Hr Hk] Hv]%kept_items.
    destruct (Hall r k v Hv Hr Hk). by apply Hf. }
  destruct ((m <? 0) || (n <? 0)) eqn:E0.
  { apply orb_true_iff in E0 as [E|E]; lia. }
  rewrite !Hf; [eauto | | | |]; intros r k v Hr Hk; simpl; lia.
Qed.

Lemma materialised_entry table m n ignore_row ignore_col a i j :
  dict_to_csc_mat table (m, n) ignore_row ignore_col = Ok a →
  0 ≤ i < m → 0 ≤ j < n →
  mat_get a i j =
    Ok (if decide (i ≠ ignore_row ∧ j ≠ ignore_col)
        then default 0%Q (table !! (i, j)) else 0%Q).
Proof.
  intros Ha Hi Hj. unfold dict_to_csc_mat, csc_matrix in Ha.
  repeat match type of Ha with
         | (if ?b then _ else _) = _ => destruct b; [discriminate Ha|]
         end.
  injection Ha as <-. unfold mat_get. cbn [nrows ncols mrows].
  rewrite !np_index_in_range by done. cbn [obind].
  rewrite lookup_map, lookup_seqZ_lt by lia. cbn [fmap option_fmap option_map].
  rewrite lookup_map, lookup_seqZ_lt by lia. cbn [fmap option_fmap option_map].
  rewrite !Z.add_0_l, !Z2Nat.id by lia. f_equal. unfold coo_entry.
  set (items := filter _ (map_to_list table)).
  assert (Hnd : NoDup (items.*1))
    by apply NoDup_fst_filter, NoDup_fst_map_to_list.
  destruct (values_at_key items (i, j) Hnd) as [Hsome Hnone].
  case_decide as Hkeep.
  - destruct (table !! (i, j)) as [v|] eqn:E.
    + rewrite (Hsome v); [done|]. by apply kept_items.
    + rewrite Hnone; [done|]. intros v [_ Hv]%kept_items. congruence.
  - rewrite Hnone; [done|]. intros v [Hk _]%kept_items. by apply Hkeep.
Qed.



Section ImpedanceModel.
Variable factorized : matrix → option (matrix → matrix).


(** X21: with a shorted node the impedance-gain query drops that node's
    row and column without renumbering the lines after them.  So unless
    the shorted node is the last node, any conductance entry in the last
    row (outside the shorted column) no longer fits the
    (n-1) x (n-1) shape and the query raises the library's [ValueError]. *)
Theorem impedance_short_must_be_last
    c in_name out_name short_name node_in node_out node_short k v :
  _node_id c !! in_name = Some node_in →
  _node_id c !! out_name = Some node_out →
  short_name ≠ "" → _node_id c !! short_name = Some node_short →
  node_in ≠ node_short → node_out ≠ node_short →
  node_short ≠ _n c - 1 → 1 ≤ _n c → k ≠ node_short →
  _gmat_data c !! (_n c - 1, k) = Some v →
  impedance_gain_state_space factorized c in_name out_name short_name
    = Raise (ValueError "row index exceeds matrix dimensions").
Proof.
  intros Hi Hj Hs Hk Hne1 Hne2 Hlast Hn Hkk Hv.
  unfold impedance_gain_state_space, node_of. rewrite Hi, Hj. cbn [obind].
  unfold impedance_gain_matrices, node_of. rewrite bool_decide_true by done.
  rewrite Hk. cbn [obind].
  assert ((node_in =? node_short) || (node_out =? node_short) = false) as ->.
  { apply orb_false_iff. split; by apply Z.eqb_neq. }
  unfold dict_to_csc_mat at 1. unfold csc_matrix.
  assert ((_n c - 1 <? 0) || (_n c - 1 <? 0) = false) as ->.
  { apply orb_false_iff. split; apply Z.ltb_ge; lia. }
  set (items := filter _ (map_to_list (_gmat_data c))).
  assert (existsb (fun t : Z * Z * Q => _n c - 1 <=? t.1.1) items = true) as ->; [|done].
  apply existsb_exists. exists ((_n c - 1, k), v). split; [|simpl; lia].
  apply list_elem_of_In. subst items. apply kept_items. split; [|done]. split; congruence.
Qed.

End ImpedanceModel.


Lemma impedance_short_must_be_last_witness :
  impedance_gain_state_space factorized_1x1 rc_lowpass "in" "in" "out"
    = Raise (ValueError "row index exceeds matrix dimensions").
Proof.
  apply (impedance_short_must_be_last factorized_1x1 rc_lowpass "in" "in" "out"
           1 1 0 1 (1 # 2)%Q); try reflexivity; try done; simpl; lia.
Defined.

(** * The voltage-gain query and the row it deletes *)

(** C3 (the code departs from the claim): the input row is filtered out of
    the two matrices, but the rows after it are not renumbered, although
    the matrices are given n-1 rows and the output index is lowered by one
    as if they were.  On the RC low-pass with "in" registered first
    (index 0) and "out" second (index 1) the names resolve to distinct
    non-ground indices and the reduced capacitance matrix of the claim is
    [[3]], which factorises; yet no model is built: the entries of row 1
    do not fit the one-row shape and the library raises [ValueError],
    whatever the solver.  The same network with the two names registered
    in the other order gives the model the claim describes. *)
Theorem voltage_gain_rows_not_renumbered :
  _node_id rc_lowpass_in_first !! "in" = Some 0
  ∧ _node_id rc_lowpass_in_first !! "out" = Some 1
  ∧ core_as_described (_cmat_data rc_lowpass_in_first) 2 0 = mkMat 1 1 [[3%Q]]
  ∧ is_Some (factorized_1x1 (mkMat 1 1 [[3%Q]]))
  ∧ (∀ factorized,
       voltage_gain_state_space factorized rc_lowpass_in_first "in" "out"
       = Raise (ValueError "row index exceeds matrix dimensions"))
  ∧ voltage_gain_state_space factorized_1x1 rc_lowpass "in" "out" =
      Ok (mkMat 1 1 [[(-1 # 6)%Q]], mkMat 1 1 [[(6 # 36)%Q]],
          mkMat 1 1 [[1%Q]], mkMat 1 1 [[(0 # 3)%Q]]).
Proof.
  split_and!.
  - reflexivity.
  - reflexivity.
  - vm_compute. reflexivity.
  - vm_compute. eauto.
  - intros factorized. vm_compute. reflexivity.
  - vm_compute. reflexivity.
Qed.

(** The bridged divider, input "in" (the last node), output "out":
    c_core = [[4]], c_in = [[-1]], weight = -1/4, g_core = [[1/2]],
    g_in = [[-1/2]]; so A = -1/8, B = (1/2 - 1/8)/4 = 3/32 and
    D = 1/4 (fractions as computed, not reduced). *)
Example voltage_gain_rc_bridged :
  voltage_gain_state_space factorized_1x1 rc_bridged "in" "out" =
    Ok (mkMat 1 1 [[(-1 # 8)%Q]], mkMat 1 1 [[(6 # 64)%Q]],
        mkMat 1 1 [[1%Q]], mkMat 1 1 [[(1 # 4)%Q]]).
Proof. vm_compute. reflexivity. Qed.

Lemma select_cols_in_range a cols :
  Forall (fun j => 0 ≤ j < ncols a) cols → ∃ b, select_cols a cols = Ok b.
Proof.
  intros H. unfold select_cols.
  assert (forallb (fun j => (0 <=? j) && (j <? ncols a)) cols = true) as ->; [|eauto].
  apply forallb_forall. intros j Hj%list_elem_of_In.
  rewrite Forall_forall in H. specialize (H j Hj). lia.
Qed.

Lemma select_cols_entry a cols b i k j :
  select_cols a cols = Ok b → mat_ok a →
  0 ≤ i < nrows a → cols !! k = Some j → 0 ≤ j < ncols a →
  mat_get b i (Z.of_nat k) = mat_get a i j.
Proof.
  unfold select_cols. destruct (forallb _ _); [|done].
  intros [= <-] (Hr & Hc & Hl & Hf) Hi Hk Hj.
  unfold mat_get. cbn [nrows ncols mrows].
  rewrite (np_index_in_range _ i) by done.
  rewrite (np_index_in_range _ (Z.of_nat k)) by (apply lookup_lt_Some in Hk; lia).
  rewrite (np_index_in_range _ j) by done. cbn [obind].
  rewrite lookup_map.
  destruct (lookup_lt_is_Some_2 (mrows a) (Z.to_nat i)) as [r Er]; [lia|].
  rewrite Er. cbn [fmap option_fmap option_map].
  rewrite lookup_map, Nat2Z.id, Hk. cbn [fmap option_fmap option_map].
  assert (Hlen : length r = Z.to_nat (ncols a)).
  { rewrite Forall_forall in Hf. apply Hf. by eapply list_elem_of_lookup_2. }
  destruct (lookup_lt_is_Some_2 r (Z.to_nat j)) as [x Ex]; [lia|].
  by rewrite Ex.
Qed.

Lemma slice_cols_entry a k i :
  mat_ok a → 0 ≤ k < ncols a → 0 ≤ i < nrows a →
  mat_get (slice_cols a k (k + 1)) i 0 = mat_get a i k.
Proof.
  intros (Hr & Hc & Hl & Hf) Hk Hi. unfold mat_get, slice_cols, slice_bound.
  destruct (k <? 0) eqn:E1; [lia|]. destruct (k + 1 <? 0) eqn:E2; [lia|].
  replace (Z.max 0 (Z.min (k + 1) (ncols a) - Z.min k (ncols a))) with 1 by lia.
  replace (Z.min k (ncols a)) with k by lia.
  cbn [nrows ncols mrows].
  rewrite !np_index_in_range by lia. cbn [obind].
  rewrite lookup_map.
  destruct (lookup_lt_is_Some_2 (mrows a) (Z.to_nat i)) as [r Er]; [lia|].
  rewrite Er. cbn [fmap option_fmap option_map].
  assert (Hlen : length r = Z.to_nat (ncols a)).
  { rewrite Forall_forall in Hf. apply Hf. by eapply list_elem_of_lookup_2. }
  destruct (lookup_lt_is_Some_2 r (Z.to_nat k)) as [x Ex]; [lia|].
  rewrite lookup_take_lt by (simpl; lia).
  rewrite lookup_drop. change (Z.to_nat 0) with 0%nat. by rewrite Nat.add_0_r, Ex.
Qed.

Lemma col_core_last n : 1 ≤ n → col_core n (n - 1) = seqZ 0 (n - 1).
Proof.
  intros Hn. unfold col_core.
  replace n with ((n - 1) + 1) at 1 by lia.
  rewrite seqZ_app by lia. rewrite filter_app.
  rewrite filter_Forall_id by (apply Forall_seqZ; intros; lia).
  change (seqZ (0 + (n - 1)) 1) with [0 + (n - 1)].
  rewrite filter_cons_False by (intros H; apply H; lia).
  by rewrite filter_nil, app_nil_r.
Qed.

Lemma col_core_elem n node_in k j :
  col_core n node_in !! k = Some j → 0 ≤ j < n ∧ j ≠ node_in.
Proof.
  intros H%list_elem_of_lookup_2. unfold col_core in H.
  apply list_elem_of_filter in H as [Hne Hin]. apply elem_of_seqZ in Hin. lia.
Qed.

Section VoltageModel.
Variable factorized : matrix → option (matrix → matrix).
Hypothesis solver_shape : solver_keeps_shape factorized.

(** X22: the voltage-gain query with the last registered node (index
    [_n - 1]) as input, on a circuit with a sound registry whose
    accumulator keys lie inside the node range.  The matrices materialise;
    c_core and g_core hold the entries of C and G outside the input row and
    column, c_in and g_in the entries of the input column; and when c_core
    factorises, with [weight] the solution of [c_core x = c_in], A solves
    for [-g_core], B solves for [-(g_in - g_core.weight)], D is
    [-weight[out]] and C_out is the unit row at the output index, which
    needs no shift. *)
Theorem voltage_gain_input_last_model c in_name out_name node_out :
  registry_ok c → keys_ok c →
  _node_id c !! in_name = Some (_n c - 1) →
  _node_id c !! out_name = Some node_out →
  0 ≤ node_out → node_out ≠ _n c - 1 →
  ∃ gmat cmat cmat_core gmat_core,
    voltage_gain_matrices c (_n c - 1) = Ok (gmat, cmat, cmat_core, gmat_core)
    ∧ (∀ r k, 0 ≤ r < _n c - 1 → 0 ≤ k < _n c - 1 →
         mat_get cmat_core r k = Ok (default 0%Q (_cmat_data c !! (r, k)))
         ∧ mat_get gmat_core r k = Ok (default 0%Q (_gmat_data c !! (r, k))))
    ∧ (∀ r, 0 ≤ r < _n c - 1 →
         mat_get (slice_cols cmat (_n c - 1) (_n c - 1 + 1)) r 0
           = Ok (default 0%Q (_cmat_data c !! (r, _n c - 1)))
         ∧ mat_get (slice_cols gmat (_n c - 1) (_n c - 1 + 1)) r 0
           = Ok (default 0%Q (_gmat_data c !! (r, _n c - 1))))
    ∧ ∀ solve_fun, factorized cmat_core = Some solve_fun →
        let c_in := slice_cols cmat (_n c - 1) (_n c - 1 + 1) in
        let g_in := slice_cols gmat (_n c - 1) (_n c - 1 + 1) in
        let weight := solve_fun c_in in
        ∃ prod g_in_adj w,
          np_dot gmat_core weight = Ok prod
          ∧ mat_sub g_in prod = Ok g_in_adj
          ∧ mat_get weight node_out 0 = Ok w
          ∧ voltage_gain_state_space factorized c in_name out_name =
              Ok (solve_fun (mat_neg gmat_core),
                  solve_fun (mat_neg g_in_adj),
                  unit_row (_n c - 1) node_out,
                  mkMat 1 1 [[(- w)%Q]]).
Proof.
  intros Hreg Hkeys Hi Hj Hout0 Hne.
  pose proof (registry_ok_bound _ _ _ Hreg Hj Hout0) as Hout1.
  assert (Hfit : ∀ table : gmap (Z * Z) Q,
            (∀ r k, is_Some (table !! (r, k)) → 0 ≤ r < _n c ∧ 0 ≤ k < _n c) →
            ∃ a, dict_to_csc_mat table (_n c - 1, _n c) (_n c - 1) (-1) = Ok a).
  { intros table Ht. apply materialise_ok; [lia | lia |].
    intros r k v Hv Hr Hk. destruct (Ht r k (mk_is_Some _ _ Hv)). lia. }
  destruct (Hfit (_gmat_data c)) as [gmat Hg]; [intros r k H; apply Hkeys; by left|].
  destruct (Hfit (_cmat_data c)) as [cmat Hc]; [intros r k H; apply Hkeys; by right|].
  pose proof (csc_matrix_shape _ _ _ _ Hg) as (Hg1 & Hg2 & Hg3).
  pose proof (csc_matrix_shape _ _ _ _ Hc) as (Hc1 & Hc2 & Hc3).
  destruct (select_cols_in_range cmat (seqZ 0 (_n c - 1))) as [cmat_core Hcc].
  { apply Forall_seqZ. intros. lia. }
  destruct (select_cols_in_range gmat (seqZ 0 (_n c - 1))) as [gmat_core Hgc].
  { apply Forall_seqZ. intros. lia. }
  assert (Hm : voltage_gain_matrices c (_n c - 1)
               = Ok (gmat, cmat, cmat_core, gmat_core)).
  { unfold voltage_gain_matrices. rewrite Hg. cbn [obind]. rewrite Hc. cbn [obind].
    rewrite col_core_last by lia. rewrite Hcc. cbn [obind]. by rewrite Hgc. }
  assert (Hentry : ∀ table a r k,
            dict_to_csc_mat table (_n c - 1, _n c) (_n c - 1) (-1) = Ok a →
            0 ≤ r < _n c - 1 → 0 ≤ k < _n c →
            mat_get a r k = Ok (default 0%Q (table !! (r, k)))).
  { intros table a r k Ha Hr Hk.
    rewrite (materialised_entry _ _ _ _ _ _ _ _ Ha) by lia.
    by rewrite decide_True by lia. }
  exists gmat, cmat, cmat_core, gmat_core. split_and!; [done | | |].
  - intros r k Hr Hk.
    assert (Hlk : seqZ 0 (_n c - 1) !! Z.to_nat k = Some k).
    { rewrite lookup_seqZ_lt by lia. f_equal. lia. }
    rewrite <- (Z2Nat.id k) at 1 3 by lia.
    rewrite (select_cols_entry _ _ _ r _ k Hcc Hc3) by (done || lia).
    rewrite (select_cols_entry _ _ _ r _ k Hgc Hg3) by (done || lia).
    split; apply Hentry; (done || lia).
  - intros r Hr.
    rewrite (slice_cols_entry cmat) by (done || lia).
    rewrite (slice_cols_entry gmat) by (done || lia).
    split; apply Hentry; (done || lia).
  - intros solve_fun Hf.
    pose proof (voltage_gain_model_when_materialised factorized solver_shape
                  c in_name out_name (_n c - 1) node_out gmat cmat cmat_core gmat_core
                  solve_fun Hreg Hi Hj ltac:(lia) ltac:(lia) Hout0 Hm Hf) as H.
    cbn zeta in H.
    assert (Hlt : (_n c - 1 <? node_out) = false) by lia.
    rewrite Hlt in H. exact H.
Qed.

(** X23: with another node as input the input row is blanked where it
    stands.  Whenever the two matrices materialise for an input that is
    not the last node, the c_core and g_core the query builds have nothing
    but zeros in the row of the input index. *)
Theorem voltage_gain_input_row_left_empty
    c node_in gmat cmat cmat_core gmat_core :
  voltage_gain_matrices c node_in = Ok (gmat, cmat, cmat_core, gmat_core) →
  0 ≤ node_in < _n c - 1 →
  ∀ k, 0 ≤ k < _n c - 1 →
    mat_get cmat_core node_in k = Ok 0%Q ∧ mat_get gmat_core node_in k = Ok 0%Q.
Proof.
  intros Hm Hin k Hk. unfold voltage_gain_matrices in Hm.
  apply obind_ok in Hm as (g & Hg & Hm). apply obind_ok in Hm as (cm & Hc & Hm).
  apply obind_ok in Hm as (cc & Hcc & Hm). apply obind_ok in Hm as (gc & Hgc & Hm).
  injection Hm as -> -> -> ->.
  pose proof (csc_matrix_shape _ _ _ _ Hg) as (Hg1 & Hg2 & Hg3).
  pose proof (csc_matrix_shape _ _ _ _ Hc) as (Hc1 & Hc2 & Hc3).
  destruct (lookup_lt_is_Some_2 (col_core (_n c) node_in) (Z.to_nat k)) as [j Hj].
  { rewrite col_core_length by lia. lia. }
  destruct (col_core_elem _ _ _ _ Hj) as [Hj1 Hj2].
  rewrite <- (Z2Nat.id k) by lia.
  rewrite (select_cols_entry _ _ _ node_in _ j Hcc Hc3) by (done || lia).
  rewrite (select_cols_entry _ _ _ node_in _ j Hgc Hg3) by (done || lia).
  rewrite (materialised_entry _ _ _ _ _ _ _ _ Hc) by lia.
  rewrite (materialised_entry _ _ _ _ _ _ _ _ Hg) by lia.
  by rewrite !decide_False by (intros [H _]; by apply H).
Qed.

End VoltageModel.

Lemma registry_ok_rc_bridged : registry_ok rc_bridged.
Proof. destruct registry_ok_rc_lowpass as [Hg Hs Hd Hn Hr Hi Ho]. by split. Qed.

Lemma keys_ok_rc_bridged : keys_ok rc_bridged.
Proof.
  intros r k [[x Hx]|[x Hx]];
    unfold rc_bridged, rc_lowpass in Hx; cbn [_gmat_data _cmat_data] in Hx;
    rewrite ?lookup_insert in Hx; repeat case_decide; simplify_eq; simpl;
    try lia; by rewrite lookup_empty in Hx.
Qed.

Lemma voltage_gain_input_last_model_witness :
  registry_ok rc_bridged ∧ keys_ok rc_bridged
  ∧ voltage_gain_state_space factorized_1x1 rc_bridged "in" "out" =
      Ok (mkMat 1 1 [[(-1 # 8)%Q]], mkMat 1 1 [[(6 # 64)%Q]],
          mkMat 1 1 [[1%Q]], mkMat 1 1 [[(1 # 4)%Q]]).
Proof.
  split; [exact registry_ok_rc_bridged|]. split; [exact keys_ok_rc_bridged|].
  destruct (voltage_gain_input_last_model factorized_1x1 factorized_1x1_keeps_shape
              rc_bridged "in" "out" 0 registry_ok_rc_bridged keys_ok_rc_bridged
              eq_refl eq_refl ltac:(lia) ltac:(simpl; lia))
    as (gmat & cmat & cmat_core & gmat_core & Hm & _ & _ & Hss).
  vm_compute in Hm. injection Hm as <- <- <- <-.
  destruct (Hss _ eq_refl) as (prod & adj & w & Hp & Hs & Hw & H).
  vm_compute in Hp. injection Hp as <-.
  vm_compute in Hs. injection Hs as <-.
  vm_compute in Hw. injection Hw as <-.
  rewrite H. vm_compute. reflexivity.
Defined.

Lemma voltage_gain_input_row_left_empty_witness :
  voltage_gain_matrices rc_lowpass_spare 0 =
    Ok (mkMat 2 3 [[0%Q; 0%Q; 0%Q]; [(-1 # 2)%Q; (1 # 2)%Q; 0%Q]],
        mkMat 2 3 [[0%Q; 0%Q; 0%Q]; [0%Q; 3%Q; 0%Q]],
        mkMat 2 2 [[0%Q; 0%Q]; [3%Q; 0%Q]],
        mkMat 2 2 [[0%Q; 0%Q]; [(1 # 2)%Q; 0%Q]])
  ∧ mat_get (mkMat 2 2 [[0%Q; 0%Q]; [3%Q; 0%Q]]) 0 1 = Ok 0%Q
  ∧ mat_get (mkMat 2 2 [[0%Q; 0%Q]; [(1 # 2)%Q; 0%Q]]) 0 1 = Ok 0%Q.
Proof.
  assert (H : voltage_gain_matrices rc_lowpass_spare 0 =
                Ok (mkMat 2 3 [[0%Q; 0%Q; 0%Q]; [(-1 # 2)%Q; (1 # 2)%Q; 0%Q]],
                    mkMat 2 3 [[0%Q; 0%Q; 0%Q]; [0%Q; 3%Q; 0%Q]],
                    mkMat 2 2 [[0%Q; 0%Q]; [3%Q; 0%Q]],
                    mkMat 2 2 [[0%Q; 0%Q]; [(1 # 2)%Q; 0%Q]]))
    by (vm_compute; reflexivity).
  split; [exact H|].
  apply (voltage_gain_input_row_left_empty rc_lowpass_spare 0 _ _ _ _ H); simpl; lia.
Defined.

(** * The element stamp, entry by entry *)

(** X9: a resistor between two non-ground nodes whose four entries are
    present.  The call returns, and of the conductance accumulator it
    changes those four entries only: the two diagonal entries become the
    old value plus [1/res], the two off-diagonal entries the old value
    minus [1/res]; every other key of G and all of C stay as they were. *)
Theorem add_res_stamp_four_entries res p_name n_name c a b c' p n gpp gpn gnn gnp :
  resolve_all [p_name; n_name] c = (Ok [a; b], c') → a ≠ b →
  swap_lt a b = (p, n) → 0 ≤ n → Qeq_bool res 0 = false →
  _gmat_data c !! (p, p) = Some gpp → _gmat_data c !! (p, n) = Some gpn →
  _gmat_data c !! (n, n) = Some gnn → _gmat_data c !! (n, p) = Some gnp →
  let r := add_res res p_name n_name c in
  r.1 = Ok tt
  ∧ _gmat_data r.2 !! (p, p) = Some (gpp + / res)%Q
  ∧ _gmat_data r.2 !! (p, n) = Some (gpn - / res)%Q
  ∧ _gmat_data r.2 !! (n, n) = Some (gnn + / res)%Q
  ∧ _gmat_data r.2 !! (n, p) = Some (gnp - / res)%Q
  ∧ (∀ key, key ≠ (p, p) → key ≠ (p, n) → key ≠ (n, n) → key ≠ (n, p) →
            _gmat_data r.2 !! key = _gmat_data c !! key)
  ∧ _cmat_data r.2 = _cmat_data c.
Proof.
  intros Hres Hne Hswap Hn Hr Hpp Hpn Hnn Hnp r. subst r.
  rewrite (add_res_stamp_on_present_keys _ _ _ _ _ _ _ _ _ _ _ _ _
             Hres Hne Hswap Hn Hr Hpp Hpn Hnn Hnp). cbn [fst snd _gmat_data _cmat_data].
  assert (Hpn' : p ≠ n).
  { unfold swap_lt in Hswap. destruct (a <? b); injection Hswap as <- <-; congruence. }
  split_and!; try done.
  - rewrite !lookup_insert_ne by congruence. apply lookup_insert_eq.
  - rewrite !lookup_insert_ne by congruence. apply lookup_insert_eq.
  - rewrite !lookup_insert_ne by congruence. apply lookup_insert_eq.
  - apply lookup_insert_eq.
  - intros key H1 H2 H3 H4. by rewrite !lookup_insert_ne by congruence.
Qed.

Lemma add_res_stamp_four_entries_witness :
  (add_res 2 "in" "out" rc_lowpass).1 = Ok tt
  ∧ _gmat_data (add_res 2 "in" "out" rc_lowpass).2 !! (1, 1) = Some ((1 # 2) + / 2)%Q
  ∧ _gmat_data (add_res 2 "in" "out" rc_lowpass).2 !! (1, 0) = Some (- (1 # 2) - / 2)%Q.
Proof.
  edestruct (add_res_stamp_four_entries 2 "in" "out" rc_lowpass 1 0 rc_lowpass 1 0)
    as (H0 & H1 & H2 & _);
    [reflexivity | lia | reflexivity | lia | reflexivity
    | reflexivity | reflexivity | reflexivity | reflexivity |].
  split; [exact H0|]. split; [exact H1 | exact H2].
Defined.

(** * The shorted node of the impedance-gain query *)

(** X24: what the impedance-gain query hands on when a node is shorted and
    the matrices materialise.  The shape is (n-1) x (n-1); the input and
    output indices above the shorted index are lowered by one; the matrix
    entries keep their positions, with zeros all along the row and the
    column of the shorted index. *)
Theorem impedance_short_lines_kept_in_place
    c node_in node_out short_name node_short mat_shape gmat cmat node_in' node_out' :
  short_name ≠ "" → _node_id c !! short_name = Some node_short →
  impedance_gain_matrices c node_in node_out short_name
    = Ok (mat_shape, gmat, cmat, node_in', node_out') →
  mat_shape = (_n c - 1, _n c - 1)
  ∧ node_in' = (if node_short <? node_in then node_in - 1 else node_in)
  ∧ node_out' = (if node_short <? node_out then node_out - 1 else node_out)
  ∧ ∀ r k, 0 ≤ r < _n c - 1 → 0 ≤ k < _n c - 1 →
      mat_get gmat r k =
        Ok (if decide (r ≠ node_short ∧ k ≠ node_short)
            then default 0%Q (_gmat_data c !! (r, k)) else 0%Q)
      ∧ mat_get cmat r k =
        Ok (if decide (r ≠ node_short ∧ k ≠ node_short)
            then default 0%Q (_cmat_data c !! (r, k)) else 0%Q).
Proof.
  intros Hs Hk. unfold impedance_gain_matrices, node_of.
  rewrite bool_decide_true by done. rewrite Hk. cbn [obind].
  destruct ((node_in =? node_short) || (node_out =? node_short)); [done|].
  intros (g & Hg & H)%obind_ok. apply obind_ok in H as (cm & Hc & H).
  injection H as <- <- <- <- <-. unfold remap. split_and!; try done.
  intros r k Hr Hkk.
  by rewrite (materialised_entry _ _ _ _ _ _ _ _ Hg Hr Hkk),
             (materialised_entry _ _ _ _ _ _ _ _ Hc Hr Hkk).
Qed.

Lemma impedance_short_lines_kept_in_place_witness :
  impedance_gain_matrices rc_lowpass_spare 1 1 "in"
    = Ok ((2, 2), mkMat 2 2 [[0%Q; 0%Q]; [0%Q; (1 # 2)%Q]],
          mkMat 2 2 [[0%Q; 0%Q]; [0%Q; 3%Q]], 0, 0)
  ∧ (0 = if 0 <? 1 then 1 - 1 else 1).
Proof.
  assert (H : impedance_gain_matrices rc_lowpass_spare 1 1 "in"
              = Ok ((2, 2), mkMat 2 2 [[0%Q; 0%Q]; [0%Q; (1 # 2)%Q]],
                    mkMat 2 2 [[0%Q; 0%Q]; [0%Q; 3%Q]], 0, 0))
    by (vm_compute; reflexivity).
  split; [exact H|].
  exact (proj1 (proj2 (impedance_short_lines_kept_in_place rc_lowpass_spare 1 1 "in" 0
                         _ _ _ _ _ ltac:(done) eq_refl H))).
Defined.
